(** * Medal table refresh: name resolution, ranking and aggregation

    A shallow embedding of [tools/medals/fetch_medals.py] and
    [tools/medals/etag_check.py], and the properties of the pipeline:
    text normalisation, lookup keys, per-row extraction, the aggregate row,
    ranking, and the change-detection and failure paths of [main]. *)

From Stdlib Require Import ZArith NArith Ascii String DecimalString DecimalPos.
From stdpp Require Import base option list gmap sorting.

Local Open Scope N_scope.

(** ** Python strings

    A Python [str] is a sequence of Unicode code points. *)

Abbreviation str := (list N).

(** The code points of an ASCII literal. *)
Fixpoint u (s : string) : str :=
  match s with
  | EmptyString => []
  | String a r => N_of_ascii a :: u r
  end.

Definition LF : N := 10.
Definition SPACE : N := 32.
Definition STAR : N := 42.
Definition LBRACKET : N := 91.
Definition RBRACKET : N := 93.
Definition NBSP : N := 160.      (* "\xa0" *)
Definition DAGGER : N := 8224.   (* U+2020 *)
Definition DDAGGER : N := 8225.  (* U+2021 *)

(** Unicode white space as CPython decides it, for [\s] in a [str] pattern
    and for [str.strip()]. *)
Definition isspace (c : N) : bool :=
  ((9 <=? c) && (c <=? 13)) || ((28 <=? c) && (c <=? 32))
  || (c =? 133) || (c =? 160) || (c =? 5760)
  || ((8192 <=? c) && (c <=? 8202))
  || (c =? 8232) || (c =? 8233) || (c =? 8239) || (c =? 8287) || (c =? 12288).

(** [str.lstrip()], [str.rstrip()] and [str.strip()] without argument. *)
Fixpoint lstrip (s : str) : str :=
  match s with
  | [] => []
  | c :: r => if isspace c then lstrip r else s
  end.

Fixpoint rstrip (s : str) : str :=
  match s with
  | [] => []
  | c :: r =>
      match rstrip r with
      | [] => if isspace c then [] else [c]
      | r' => c :: r'
      end
  end.

Definition strip (s : str) : str := rstrip (lstrip s).

(** ** Cell values

    What a table cell, a CSV field or a column label can be: [None], a
    string, an integer, or a float given by its [str()]. *)
Inductive pyval :=
  | PNone
  | PStr (s : str)
  | PInt (z : Z)
  | PFloat (repr : str).

Fixpoint uint_str (d : Decimal.uint) : str :=
  match d with
  | Decimal.Nil => []
  | Decimal.D0 r => 48 :: uint_str r
  | Decimal.D1 r => 49 :: uint_str r
  | Decimal.D2 r => 50 :: uint_str r
  | Decimal.D3 r => 51 :: uint_str r
  | Decimal.D4 r => 52 :: uint_str r
  | Decimal.D5 r => 53 :: uint_str r
  | Decimal.D6 r => 54 :: uint_str r
  | Decimal.D7 r => 55 :: uint_str r
  | Decimal.D8 r => 56 :: uint_str r
  | Decimal.D9 r => 57 :: uint_str r
  end.

Definition int_str (z : Z) : str :=
  match Z.to_int z with
  | Decimal.Pos d => uint_str d
  | Decimal.Neg d => 45 :: uint_str d
  end.

(** [str(value)] for a value that is not [None]. *)
Definition py_str (v : pyval) : str :=
  match v with
  | PNone => u "None"
  | PStr s => s
  | PInt z => int_str z
  | PFloat repr => repr
  end.

(** ** normalize_text *)

(** Does [.*?\]] match at the head of [s]: a closing bracket is reached
    before any line feed ([.] matches every character but the line feed). *)
Fixpoint closes (s : str) : bool :=
  match s with
  | [] => false
  | c :: r =>
      if c =? RBRACKET then true
      else if c =? LF then false
      else closes r
  end.

(** [re.sub(r"\[.*?\]", "", text)]: scanning from the left, an opening
    bracket whose lazy body reaches a closing bracket starts a match, which
    is dropped through that first closing bracket; [inside] is true while
    the scan is within a match. *)
Fixpoint sub_brackets (inside : bool) (s : str) : str :=
  match s with
  | [] => []
  | c :: r =>
      if inside then
        if c =? RBRACKET then sub_brackets false r else sub_brackets true r
      else if (c =? LBRACKET) && closes r then sub_brackets true r
      else c :: sub_brackets false r
  end.

(** [text.replace("\xa0", " ")] *)
Definition replace_nbsp (s : str) : str :=
  (λ c, if c =? NBSP then SPACE else c) <$> s.

(** [text.replace("†", "").replace("‡", "").replace("*", "")] *)
Definition is_glyph (c : N) : bool :=
  (c =? DAGGER) || (c =? DDAGGER) || (c =? STAR).

Definition remove_glyphs (s : str) : str :=
  List.filter (λ c, negb (is_glyph c)) s.

(** [re.sub(r"\s+", " ", text)]: every maximal run of white space becomes
    one space; [prev] is true while the scan is within a run. *)
Fixpoint sub_spaces (prev : bool) (s : str) : str :=
  match s with
  | [] => []
  | c :: r =>
      if isspace c then
        if prev then sub_spaces true r else SPACE :: sub_spaces true r
      else c :: sub_spaces false r
  end.

Definition normalize_text (value : pyval) : str :=
  match value with
  | PNone => []
  | _ =>
      let text := py_str value in
      let text := sub_brackets false text in
      let text := replace_nbsp text in
      let text := remove_glyphs text in
      let text := strip (sub_spaces false text) in
      text
  end.

(** ** Unicode data

    [unicodedata.normalize("NFKD", _)], [unicodedata.combining] and
    [str.lower] read the interpreter's Unicode character database, which is
    no part of the repository: the program is embedded over any such data. *)
Record unicode_data := UnicodeData {
  nfkd : str → str;
  combining : N → N;
  lower : str → str;
}.

(** The database restricted to text in the Latin-1 range U+0000..U+00FF,
    where it is exact: the compatibility decompositions of that range, the
    combining classes of the marks they produce, and the upper-case letters
    of that range. Code points beyond it are left alone. *)
Module Latin1.

Definition decomposition (c : N) : str :=
  if c <? 160 then [c] else
  match c with
  | 160 => [32]        | 168 => [32; 776]   | 170 => [97]
  | 175 => [32; 772]   | 178 => [50]        | 179 => [51]
  | 180 => [32; 769]   | 181 => [956]       | 184 => [32; 807]
  | 185 => [49]        | 186 => [111]
  | 188 => [49; 8260; 52] | 189 => [49; 8260; 50] | 190 => [51; 8260; 52]
  | 192 => [65; 768] | 193 => [65; 769] | 194 => [65; 770]
  | 195 => [65; 771] | 196 => [65; 776] | 197 => [65; 778]
  | 199 => [67; 807]
  | 200 => [69; 768] | 201 => [69; 769] | 202 => [69; 770] | 203 => [69; 776]
  | 204 => [73; 768] | 205 => [73; 769] | 206 => [73; 770] | 207 => [73; 776]
  | 209 => [78; 771]
  | 210 => [79; 768] | 211 => [79; 769] | 212 => [79; 770]
  | 213 => [79; 771] | 214 => [79; 776]
  | 217 => [85; 768] | 218 => [85; 769] | 219 => [85; 770] | 220 => [85; 776]
  | 221 => [89; 769]
  | 224 => [97; 768] | 225 => [97; 769] | 226 => [97; 770]
  | 227 => [97; 771] | 228 => [97; 776] | 229 => [97; 778]
  | 231 => [99; 807]
  | 232 => [101; 768] | 233 => [101; 769] | 234 => [101; 770] | 235 => [101; 776]
  | 236 => [105; 768] | 237 => [105; 769] | 238 => [105; 770] | 239 => [105; 776]
  | 241 => [110; 771]
  | 242 => [111; 768] | 243 => [111; 769] | 244 => [111; 770]
  | 245 => [111; 771] | 246 => [111; 776]
  | 249 => [117; 768] | 250 => [117; 769] | 251 => [117; 770] | 252 => [117; 776]
  | 253 => [121; 769] | 255 => [121; 776]
  | _ => [c]
  end.

Definition class (c : N) : N :=
  if c <? 768 then 0 else
  match c with
  | 768 | 769 | 770 | 771 | 772 | 776 | 778 => 230
  | 807 => 202
  | _ => 0
  end.

Definition lower_char (c : N) : N :=
  if ((65 <=? c) && (c <=? 90))
     || ((192 <=? c) && (c <=? 222) && negb (c =? 215))
  then c + 32 else c.

Definition data : unicode_data :=
  {| nfkd := λ s, s ≫= decomposition;
     combining := class;
     lower := fmap lower_char |}.

End Latin1.

(** ** Static tables *)

Definition NAME_OVERRIDES : gmap str str :=
  list_to_map
    [ (u "Czechia", u "Czech Republic");
      (u "T" ++ [252] ++ u "rkiye", u "Turkey");
      (u "United States", u "United States of America");
      (u "United States of America", u "United States of America");
      (u "Great Britain", u "Great Britain");
      (u "Russia", u "Russian Federation");
      (u "Korea", u "South Korea");
      (u "Korea, South", u "South Korea");
      (u "Korea, North", u "North Korea");
      (u "People's Republic of China", u "China");
      (u "Hong Kong", u "Hong Kong, China");
      (u "C" ++ [244] ++ u "te d'Ivoire", u "Cote d'Ivoire");
      (u "Cura" ++ [231] ++ u "ao", u "Curacao") ].

Definition ISO2_OVERRIDES : gmap str str :=
  list_to_map
    [ (u "EU27", u "EU");
      (u "EU", u "EU");
      (u "Great Britain", u "GB");
      (u "United States of America", u "US");
      (u "United States", u "US");
      (u "Russia", u "RU");
      (u "Russian Federation", u "RU");
      (u "Czech Republic", u "CZ");
      (u "Czechia", u "CZ");
      (u "T" ++ [252] ++ u "rkiye", u "TR");
      (u "Turkey", u "TR");
      (u "South Korea", u "KR");
      (u "North Korea", u "KP");
      (u "Korea", u "KR");
      (u "China", u "CN");
      (u "People's Republic of China", u "CN");
      (u "Hong Kong, China", u "HK");
      (u "Hong Kong", u "HK");
      (u "Cote d'Ivoire", u "CI");
      (u "C" ++ [244] ++ u "te d'Ivoire", u "CI");
      (u "Viet Nam", u "VN");
      (u "Vietnam", u "VN");
      (u "Iran", u "IR");
      (u "Iran, Islamic Republic of", u "IR");
      (u "Moldova", u "MD");
      (u "Bolivia", u "BO");
      (u "Venezuela", u "VE");
      (u "Syria", u "SY") ].

(** Python truthiness of a string. *)
Definition truthy (s : str) : bool :=
  match s with [] => false | _ => true end.

(** ** name_key *)

(** [[a-zA-Z0-9 ]] *)
Definition is_key_char (c : N) : bool :=
  ((97 <=? c) && (c <=? 122)) || ((65 <=? c) && (c <=? 90))
  || ((48 <=? c) && (c <=? 57)) || (c =? SPACE).

Section NameKey.
Context (ud : unicode_data).

Definition name_key (value : pyval) : str :=
    let text := normalize_text value in
    let text := default text (NAME_OVERRIDES !! text) in
    let text := nfkd ud text in
    let text := List.filter (λ c, combining ud c =? 0) text in
    let text := strip (lower ud (List.filter is_key_char text)) in
    text.

End NameKey.

(** ** Tables and rows *)

(** Code-point order on strings, as [<] and [sorted] compare them. *)
Fixpoint str_compare (a b : str) : comparison :=
  match a, b with
  | [], [] => Eq
  | [], _ :: _ => Lt
  | _ :: _, [] => Gt
  | x :: a', y :: b' =>
      match x ?= y with
      | Eq => str_compare a' b'
      | c => c
      end
  end.

Definition str_ltb (a b : str) : bool :=
  match str_compare a b with Lt => true | _ => false end.

(** [prefix] is a prefix of [s] ([s.startswith(prefix)]). *)
Fixpoint startswith (s prefix : str) : bool :=
  match prefix, s with
  | [], _ => true
  | _ :: _, [] => false
  | a :: p', b :: s' => (a =? b) && startswith s' p'
  end.

(** [sub in s] *)
Fixpoint contains (s sub : str) : bool :=
  startswith s sub
  || match s with
     | [] => false
     | _ :: s' => contains s' sub
     end.

(** [sorted(set(l))] on strings: the distinct elements in ascending order. *)
Fixpoint insert_new (x : str) (l : list str) : list str :=
  match l with
  | [] => [x]
  | y :: r =>
      match str_compare x y with
      | Lt => x :: l
      | Eq => l
      | Gt => y :: insert_new x r
      end
  end.

Definition sorted_set (l : list str) : list str :=
  foldr insert_new [] l.

(** The columns of a table read by [pd.read_html]: a plain index of labels,
    or a [MultiIndex] of tuples of labels. *)
Inductive columns :=
  | Index (labels : list pyval)
  | MultiIndex (labels : list (list pyval)).

Record html_table := HtmlTable {
  ht_columns : columns;
  ht_rows : list (list pyval);
}.

(** A table whose labels [flatten_columns] has made strings. *)
Record dataframe := DataFrame {
  df_columns : list str;
  df_rows : list (list pyval);
}.

(** One output row, a [dict]; [is_eu] is no key of it until [add_eu_row]. *)
Record medal_row := MedalRow {
  rank : option Z;
  country : str;
  noc : str;
  iso2 : option str;
  flag_url : option str;
  gold : Z;
  silver : Z;
  bronze : Z;
  total : Z;
  is_eu : option bool;
}.

Inductive exn :=
  | RuntimeError (msg : str)
  | ValueError (msg : str)
  | RequestException.

Inductive result (A : Type) :=
  | Ok (a : A)
  | Raise (e : exn).
Arguments Ok {A} a.
Arguments Raise {A} e.

(** [parts[-1] if parts else ""] *)
Definition last_or_empty (parts : list str) : str := default [] (last parts).

Definition flatten_columns (t : html_table) : dataframe :=
  match ht_columns t with
  | MultiIndex cols =>
      DataFrame
        ((λ col, last_or_empty
                   (List.filter truthy (normalize_text <$> col))) <$> cols)
        (ht_rows t)
  | Index cols => DataFrame (normalize_text <$> cols) (ht_rows t)
  end.

(** [flatten_columns] on a table it has flattened before: the labels are
    strings in a plain index. *)
Definition flatten_columns_again (df : dataframe) : dataframe :=
  DataFrame ((λ c, normalize_text (PStr c)) <$> df_columns df) (df_rows df).

(** [row.get(col)] on a row of the table; [None] when there is no such
    column. Labels are taken to be distinct. *)
Definition row_get (cols : list str) (row : list pyval) (col : option str) : pyval :=
  match col with
  | None => PNone
  | Some c =>
      match list_find (λ c', c' = c) cols with
      | Some (i, _) => default PNone (row !! i)
      | None => PNone
      end
  end.

(** Truthiness of a column label that may be [None]. *)
Definition col_truthy (col : option str) : bool :=
  match col with
  | Some (_ :: _) => true
  | _ => false
  end.

Definition is_digit (c : N) : bool := (48 <=? c) && (c <=? 57).

(** [int(text)] on a string of ASCII digits. *)
Definition int_of_digits (text : str) : Z :=
  foldl (λ acc c, acc * 10 + Z.of_N (c - 48))%Z 0%Z text.

(** [to_int], the local function of [parse_medal_table]. *)
Definition to_int (value : pyval) : Z :=
  let text := normalize_text value in
  let text := List.filter is_digit text in
  if truthy text then int_of_digits text else 0%Z.

(** ** Row extraction *)

Definition FLAG_PREFIX : str := u "https://flagcdn.com/w40/".
Definition FLAG_SUFFIX : str := u ".png".

(** What one iteration of the loop over [df.iterrows()] does with its row:
    [continue] before any lookup, [unmapped.append(country)], or
    [rows.append(...)]. *)
Inductive extracted :=
  | Skipped
  | Unmapped (label : str)
  | Extracted (r : medal_row).

Section Extraction.
Context (ud : unicode_data).
  (** [pycountry.countries.search_fuzzy(name)[0].alpha_2], [None] when the
      search raises. *)
Context (search_fuzzy : str → option str).

  (** [str(c).strip().lower()] for a label [c]. *)
Definition label_name (c : str) : str := lower ud (strip c).

(** [pick_medal_table], from the tables of the page; [pd.read_html] raises
    when the page has none. *)
Definition pick_medal_table (tables : list html_table) : result dataframe :=
  match tables with
  | [] => Raise (ValueError (u "No tables found"))
  | _ =>
      match
        List.find
          (λ df, let cols := label_name <$> df_columns df in
                 forallb (λ name, bool_decide (name ∈ cols))
                         [u "gold"; u "silver"; u "bronze"; u "total"])
          (flatten_columns <$> tables)
      with
      | Some df => Ok df
      | None =>
          Raise (RuntimeError (u "Could not find medal table with required columns."))
      end
  end.

(** [find_col], the local function of [parse_medal_table]; [col_map] keeps
      the last label of each lower-cased name. *)
Definition find_col (cols : list str) (candidates : list str) : option str :=
    let colnames := label_name <$> cols in
    let col_map : gmap str str := list_to_map (reverse (zip colnames cols)) in
    match omap (λ cand, List.find (λ col, contains col cand) colnames) candidates with
    | col :: _ => col_map !! col
    | [] => None
    end.

Definition iso2_from_country (country_name : str) : option str :=
    if negb (truthy country_name) then None
    else match ISO2_OVERRIDES !! country_name with
         | Some code => Some code
         | None => search_fuzzy country_name
         end.

  (** [f"https://flagcdn.com/w40/{iso2.lower()}.png" if iso2 else None] *)
Definition flag_url_of (iso2 : option str) : option str :=
    match iso2 with
    | Some code =>
        if truthy code then Some (FLAG_PREFIX ++ lower ud code ++ FLAG_SUFFIX)
        else None
    | None => None
    end.

(** The columns [parse_medal_table] reads, as they stand when its loop
    starts: [(rank_col, nation_col, noc_col)]. *)
Definition medal_columns (df : dataframe) : option str * option str * option str :=
  let cols := df_columns df in
  let rank_col := find_col cols [u "rank"; u "rk"] in
  let nation_col := find_col cols [u "nation"; u "team"; u "country"] in
  let noc_col := find_col cols [u "noc"] in
  let medal_cols :=
    List.filter truthy
      (omap id [find_col cols [u "gold"]; find_col cols [u "silver"];
                find_col cols [u "bronze"]; find_col cols [u "total"]]) in
  let nation_col :=
    match nation_col with
    | Some c => Some c
    | None =>
        List.find
          (λ col, negb (bool_decide (col ∈ medal_cols)
                        || bool_decide (Some col = rank_col)
                        || bool_decide (Some col = noc_col)))
          cols
    end in
  match nation_col, noc_col with
  | None, Some c =>
      let sample_values :=
        (λ row, normalize_text (row_get cols row noc_col))
          <$> take 5 (df_rows df) in
      if existsb (λ v, truthy v && (3 <? length v)%nat) sample_values
      then (rank_col, noc_col, None)
      else (rank_col, nation_col, noc_col)
  | _, _ => (rank_col, nation_col, noc_col)
  end.

Section Loop.
Context (cols : list str).
Context (rank_col nation_col noc_col : option str).
Context (name_to_noc noc_to_name : gmap str str).

(** The variables [country] and [noc_raw] of the loop body. *)
Definition country_label (row : list pyval) : str :=
  let country_raw :=
    if col_truthy nation_col then normalize_text (row_get cols row nation_col)
    else [] in
  default country_raw (NAME_OVERRIDES !! country_raw).

Definition noc_value (row : list pyval) : str :=
  if col_truthy noc_col then normalize_text (row_get cols row noc_col) else [].

Definition extract_row (row : list pyval) : extracted :=
  let noc_raw := noc_value row in
  let country := country_label row in
  if negb (truthy country) || startswith (lower ud country) (u "total")
  then Skipped
  else
    let gold := to_int (row_get cols row (find_col cols [u "gold"])) in
    let silver := to_int (row_get cols row (find_col cols [u "silver"])) in
    let bronze := to_int (row_get cols row (find_col cols [u "bronze"])) in
    let total := to_int (row_get cols row (find_col cols [u "total"])) in
    let total := if (total =? 0)%Z then (gold + silver + bronze)%Z else total in
    let noc :=
      if negb (truthy noc_raw) || negb (length noc_raw =? 3)%nat
      then name_to_noc !! name_key ud (PStr country)
      else Some noc_raw in
    match noc with
    | Some ((_ :: _) as noc) =>
        let country_name := default country (noc_to_name !! noc) in
        let iso2 := iso2_from_country country_name in
        Extracted
          {| rank := if col_truthy rank_col
                     then Some (to_int (row_get cols row rank_col))
                     else None;
             country := country_name;
             noc := noc;
             iso2 := iso2;
             flag_url := flag_url_of iso2;
             gold := gold;
             silver := silver;
             bronze := bronze;
             total := total;
             is_eu := None |}
    | _ => Unmapped country
    end.

End Loop.

Definition extracted_rows (xs : list extracted) : list medal_row :=
  omap (λ x, match x with Extracted r => Some r | _ => None end) xs.

Definition unmapped_labels (xs : list extracted) : list str :=
  omap (λ x, match x with Unmapped l => Some l | _ => None end) xs.

(** What the loop of [parse_medal_table] does with each row of the table
    it picked, in order. *)
Definition extractions (tables : list html_table)
    (name_to_noc noc_to_name : gmap str str) : result (list extracted) :=
  match pick_medal_table tables with
  | Raise e => Raise e
  | Ok df =>
      let df := flatten_columns_again df in
      let '(rank_col, nation_col, noc_col) := medal_columns df in
      Ok (extract_row (df_columns df) rank_col nation_col noc_col
            name_to_noc noc_to_name <$> df_rows df)
  end.

(** [parse_medal_table]: [(rows, sorted(set(unmapped)))]. *)
Definition parse_medal_table (tables : list html_table)
    (name_to_noc noc_to_name : gmap str str)
    : result (list medal_row * list str) :=
  match extractions tables name_to_noc noc_to_name with
  | Raise e => Raise e
  | Ok xs => Ok (extracted_rows xs, sorted_set (unmapped_labels xs))
  end.

End Extraction.

(** ** Ranking *)

Local Open Scope Z_scope.

(** The key of [sorted] in [compute_rank]. *)
Definition sort_key (r : medal_row) : Z * Z * Z * Z * str :=
  (- gold r, - silver r, - bronze r, - total r, country r).

(** Tuples compare component by component, left to right. *)
Definition key_compare (a b : Z * Z * Z * Z * str) : comparison :=
  let '(a1, a2, a3, a4, a5) := a in
  let '(b1, b2, b3, b4, b5) := b in
  match a1 ?= b1 with
  | Eq =>
      match a2 ?= b2 with
      | Eq =>
          match a3 ?= b3 with
          | Eq =>
              match a4 ?= b4 with
              | Eq => str_compare a5 b5
              | c => c
              end
          | c => c
          end
      | c => c
      end
  | c => c
  end.

Definition key_ltb (a b : medal_row) : bool :=
  match key_compare (sort_key a) (sort_key b) with Lt => true | _ => false end.

(** [sorted(rows, key=...)] is stable: a row goes before the rows of the
    rest that are not smaller than it. *)
Fixpoint insert_row (x : medal_row) (l : list medal_row) : list medal_row :=
  match l with
  | [] => [x]
  | y :: r => if key_ltb y x then y :: insert_row x r else x :: l
  end.

Definition sorted_rows (rows : list medal_row) : list medal_row :=
  foldr insert_row [] rows.

Definition medal_key (r : medal_row) : Z * Z * Z * Z :=
  (gold r, silver r, bronze r, total r).

Definition set_rank (n : Z) (r : medal_row) : medal_row :=
  {| rank := Some n; country := country r; noc := noc r; iso2 := iso2 r;
     flag_url := flag_url r; gold := gold r; silver := silver r;
     bronze := bronze r; total := total r; is_eu := is_eu r |}.

(** The loop of [compute_rank] from position [idx], with the values [rank]
    and [prev_key] have on entry. *)
Fixpoint rank_loop (idx rank : Z) (prev_key : option (Z * Z * Z * Z))
    (rows : list medal_row) : list medal_row :=
  match rows with
  | [] => []
  | row :: rest =>
      let key := medal_key row in
      let '(rank, prev_key) :=
        if bool_decide (Some key ≠ prev_key) then (idx, Some key)
        else (rank, prev_key) in
      set_rank rank row :: rank_loop (idx + 1) rank prev_key rest
  end.

Definition compute_rank (rows : list medal_row) : list medal_row :=
  rank_loop 1 0 None (sorted_rows rows).

(** ** The aggregate row *)

(** An entry of ["members"] in the member-set file: [m.get("noc")] and the
    truth value of [m.get("eu_member")]. *)
Record member := Member {
  m_noc : option str;
  m_eu_member : bool;
}.

(** The member-set file as JSON: an object that may lack ["members"]. *)
Record eu_json := EuJson { ej_members : option (list member) }.

(** [load_eu_members]; the file is [None] when it does not exist. *)
Definition load_eu_members (file : option eu_json) : list member :=
  let data := default (EuJson (Some [])) file in
  List.filter m_eu_member (default [] (ej_members data)).

Definition eu_nocs_of (eu_members : list member) : gset str :=
  list_to_set
    (omap (λ m, match m_noc m with
                | Some ((_ :: _) as code) => Some code
                | _ => None
                end) eu_members).

Definition set_is_eu (b : bool) (r : medal_row) : medal_row :=
  {| rank := rank r; country := country r; noc := noc r; iso2 := iso2 r;
     flag_url := flag_url r; gold := gold r; silver := silver r;
     bronze := bronze r; total := total r; is_eu := Some b |}.

(** [sum(r[field] for r in rows if r["noc"] in eu_nocs)] *)
Definition eu_sum (field : medal_row → Z) (eu_nocs : gset str)
    (rows : list medal_row) : Z :=
  foldl Z.add 0
    (field <$> List.filter (λ r, bool_decide (noc r ∈ eu_nocs)) rows).

Definition eu_row (gold silver bronze : Z) : medal_row :=
  {| rank := None;
     country := u "European Union";
     noc := u "EU27";
     iso2 := Some (u "EU");
     flag_url := Some (u "https://flagcdn.com/w40/eu.png");
     gold := gold;
     silver := silver;
     bronze := bronze;
     total := gold + silver + bronze;
     is_eu := Some true |}.

(** [add_eu_row] changes [rows] in place; the result is [rows] afterwards. *)
Definition add_eu_row (rows : list medal_row) (eu_members : list member)
    : list medal_row :=
  let eu_nocs := eu_nocs_of eu_members in
  let gold := eu_sum gold eu_nocs rows in
  let silver := eu_sum silver eu_nocs rows in
  let bronze := eu_sum bronze eu_nocs rows in
  ((λ r, set_is_eu (bool_decide (noc r ∈ eu_nocs)) r) <$> rows)
    ++ [eu_row gold silver bronze].

(** ** The reference registry *)

(** A row of the reference CSV as [csv.DictReader] yields it. *)
Record ioc_row := IocRow {
  csv_noc : pyval;
  csv_country_name : pyval;
}.

Section Registry.
Context (ud : unicode_data).

  (** The loop of [load_ioc_codes] over the rows of the reference file;
      the state is [(noc_to_name, name_to_noc)]. *)
Definition load_ioc_codes (rows : list ioc_row) : gmap str str * gmap str str :=
    foldl
      (λ '(noc_to_name, name_to_noc) row,
         let noc := normalize_text (csv_noc row) in
         let name := normalize_text (csv_country_name row) in
         if negb (truthy noc) || negb (truthy name)
         then (noc_to_name, name_to_noc)
         else (<[noc := name]> noc_to_name,
               <[name_key ud (PStr name) := noc]> name_to_noc))
      (∅, ∅) rows.

End Registry.

(** ** Files and the run *)

Definition MEDAL_URL : str :=
  u "https://en.wikipedia.org/w/rest.php/v1/page/2026_Winter_Olympics_medal_table/html".

(** The metadata object; a field is [None] when the key is missing or null. *)
Record meta := Meta {
  last_etag : option str;
  last_modified : option str;
  last_revision_id : option str;
  last_update_utc : option str;
  source_url : option str;
  unmapped_countries : list str;
}.

Record payload := Payload {
  p_last_updated_utc : str;
  p_source_url : str;
  p_source_revision_id : option str;
  p_source_retrieved_at_utc : option str;
  p_rows : list medal_row;
}.

(** The files the run writes; a file is [None] while it does not exist.
    The CSV file is given by the rows written under its header. *)
Record files := Files {
  META_JSON : option meta;
  MEDALS_CSV : option (list medal_row);
  MEDALS_JSON : option payload;
}.

(** What the run gets from outside: the command line, the response to
    [fetch_url(MEDAL_URL)] (the tables of the page and the two headers), the
    rows of the reference file after [maybe_refresh_ioc_codes], the
    member-set file, and the clock at its two readings. *)
Record response := Response {
  resp_tables : list html_table;
  resp_etag : option str;
  resp_last_modified : option str;
}.

Record env := Env {
  force : bool;
  fetched : result response;
  ioc_codes : result (list ioc_row);
  eu_members_file : option eu_json;
  now_first : str;
  now_second : str;
}.

(** How the process ends: [sys.exit(main())], or an exception that
    nothing catches. *)
Inductive outcome :=
  | Returned (code : Z)
  | Raised (e : exn).


Definition default_meta : meta :=
  {| last_etag := None; last_modified := None; last_revision_id := None;
     last_update_utc := None; source_url := Some MEDAL_URL;
     unmapped_countries := [] |}.

(** [etag and meta.get("last_etag") == etag] *)
Definition header_matches (header stored : option str) : bool :=
  match header with
  | Some (_ :: _) => bool_decide (stored = header)
  | _ => false
  end.

(** [etag or meta.get("last_revision_id")] *)
Definition py_or (a b : option str) : option str :=
  match a with
  | Some (_ :: _) => a
  | _ => b
  end.

Definition set_unmapped (unmapped : list str) (m : meta) : meta :=
  {| last_etag := last_etag m; last_modified := last_modified m;
     last_revision_id := last_revision_id m;
     last_update_utc := last_update_utc m; source_url := source_url m;
     unmapped_countries := unmapped |}.

(** [", ".join(unmapped)] *)
Fixpoint join_comma (l : list str) : str :=
  match l with
  | [] => []
  | [x] => x
  | x :: r => x ++ u ", " ++ join_comma r
  end.

Definition write_outputs (now : str) (rows : list medal_row) (m : meta)
    (unmapped : list str) : files :=
  let rows := compute_rank rows in
  let m := set_unmapped unmapped m in
  {| MEDALS_CSV := Some rows;
     MEDALS_JSON :=
       Some {| p_last_updated_utc := now;
               p_source_url := MEDAL_URL;
               p_source_revision_id := last_revision_id m;
               p_source_retrieved_at_utc := last_update_utc m;
               p_rows := rows |};
     META_JSON := Some m |}.

Section Main.
Context (ud : unicode_data) (search_fuzzy : str → option str).

  (** [main] after the change detection: from [meta["last_etag"] = etag]
      to the end. *)
Definition refresh (e : env) (r : response) (m : meta) (fs : files)
      : outcome * files * list str :=
    let m :=
      {| last_etag := resp_etag r;
         last_modified := resp_last_modified r;
         last_revision_id := py_or (resp_etag r) (last_revision_id m);
         last_update_utc := Some (now_first e);
         source_url := Some MEDAL_URL;
         unmapped_countries := unmapped_countries m |} in
    match ioc_codes e with
    | Raise x => (Raised x, fs, [])
    | Ok ioc =>
        let '(noc_to_name, name_to_noc) := load_ioc_codes ud ioc in
        match
          parse_medal_table ud search_fuzzy (resp_tables r) name_to_noc noc_to_name
        with
        | Raise x => (Raised x, fs, [])
        | Ok (rows, unmapped) =>
            if bool_decide (unmapped ≠ [])
            then
              (Raised (RuntimeError (u "Unmapped countries: " ++ join_comma unmapped)),
               {| META_JSON := Some (set_unmapped unmapped m);
                  MEDALS_CSV := MEDALS_CSV fs;
                  MEDALS_JSON := MEDALS_JSON fs |},
               [])
            else
              let eu_members := load_eu_members (eu_members_file e) in
              let rows := add_eu_row rows eu_members in
              (Returned 0,
               write_outputs (now_second e) rows m unmapped,
               [u "Medal table updated."])
        end
    end.

  (** [main] of [fetch_medals.py]: how the process ends, the files
      afterwards, and what it printed. *)
Definition main (e : env) (fs : files) : outcome * files * list str :=
    let m := default default_meta (META_JSON fs) in
    match fetched e with
    | Raise x => (Raised x, fs, [])
    | Ok r =>
        if negb (force e) then
          if header_matches (resp_etag r) (last_etag m)
          then (Returned 0, fs, [u "No changes detected (ETag)."])
          else if header_matches (resp_last_modified r) (last_modified m)
          then (Returned 0, fs, [u "No changes detected (Last-Modified)."])
          else refresh e r m fs
        else refresh e r m fs
    end.

End Main.

(** [main] of [etag_check.py]: the value of [changed], which is written to
    the CI output and printed. Its metadata defaults to an object with no
    key. *)
Definition etag_check_changed (stored : option meta)
    (header_etag header_last_modified : option str) : bool :=
  let stored_etag := stored ≫= last_etag in
  let stored_modified := stored ≫= last_modified in
  if header_matches header_etag stored_etag then false
  else if header_matches header_last_modified stored_modified then false
  else true.

(** ** Predicates of the specification *)

Local Open Scope N_scope.

Definition has_line_feed (s : str) : bool := existsb (N.eqb LF) s.

(** [\[.*?\]] matches somewhere in [s]: a bracketed marker is left. *)
Fixpoint has_marker (s : str) : bool :=
  match s with
  | [] => false
  | c :: r => ((c =? LBRACKET) && closes r) || has_marker r
  end.

(** Every white-space character of [s] is a space that follows no other
    white space; [prev] tells whether white space precedes [s]. *)
Fixpoint spaced (prev : bool) (s : str) : bool :=
  match s with
  | [] => true
  | c :: r =>
      if isspace c then negb prev && (c =? SPACE) && spaced true r
      else spaced false r
  end.

(** No white space at either end. *)
Definition trimmed (s : str) : bool :=
  match head s, last s with
  | Some a, Some b => negb (isspace a) && negb (isspace b)
  | _, _ => true
  end.

(** None of the characters [normalize_text] replaces or removes. *)
Definition is_plain (c : N) : bool := negb (c =? NBSP) && negb (is_glyph c).

Definition has_close (s : str) : bool := existsb (N.eqb RBRACKET) s.

(** An opening bracket with a closing bracket anywhere after it. *)
Fixpoint has_pair (s : str) : bool :=
  match s with
  | [] => false
  | c :: r => ((c =? LBRACKET) && has_close r) || has_pair r
  end.

(** [thin s t]: [t] is [s] with characters dropped and characters other
    than brackets replaced by characters other than brackets. *)
Inductive thin : str → str → Prop :=
  | thin_nil : thin [] []
  | thin_drop c s t : thin s t → thin (c :: s) t
  | thin_keep c c' s t :
      (c' = LBRACKET → c = LBRACKET) → (c' = RBRACKET → c = RBRACKET) →
      thin s t → thin (c :: s) (c' :: t).

Local Open Scope Z_scope.

Definition str_le (a b : str) : Prop := str_compare a b ≠ Gt.

(** [a] may stand before [b] in the ranked table: more gold; or as much
    gold and more silver; or as much of both and more bronze; or as much of
    the three and a greater total; or equal tuples and a country name that
    is not greater. *)
Definition precedes (a b : medal_row) : Prop :=
  gold a > gold b
  ∨ gold a = gold b
    ∧ (silver a > silver b
       ∨ silver a = silver b
         ∧ (bronze a > bronze b
            ∨ bronze a = bronze b
              ∧ (total a > total b
                 ∨ total a = total b ∧ str_le (country a) (country b)))).

(** The position, from 0, of the first row of [l] with medal tuple [k]. *)
Fixpoint first_with (k : Z * Z * Z * Z) (l : list medal_row) : nat :=
  match l with
  | [] => 0
  | r :: l' => if bool_decide (medal_key r = k) then 0%nat else S (first_with k l')
  end.

(** A row without its rank. *)
Definition drop_rank (r : medal_row) : medal_row :=
  {| rank := None; country := country r; noc := noc r; iso2 := iso2 r;
     flag_url := flag_url r; gold := gold r; silver := silver r;
     bronze := bronze r; total := total r; is_eu := is_eu r |}.

Local Open Scope N_scope.

Definition is_ascii (c : N) : bool := c <? 128.

Definition lower_ascii (c : N) : N :=
  if (65 <=? c) && (c <=? 90) then c + 32 else c.

(** What any Unicode data does on ASCII text: no decomposition, no
    combining mark, and the lower case of the 26 letters. *)
Record ascii_exact (ud : unicode_data) : Prop := AsciiExact {
  nfkd_ascii : ∀ s, forallb is_ascii s = true → nfkd ud s = s;
  combining_ascii : ∀ c, is_ascii c = true → combining ud c = 0;
  lower_ascii_text : ∀ s, forallb is_ascii s = true → lower ud s = lower_ascii <$> s;
}.

(** A text without its diacritical marks and letter case: decomposed,
    combining marks removed, ASCII letters in lower case. Two texts differ
    only in diacritical marks and letter case when this maps them to the
    same text. *)
Definition fold_marks (ud : unicode_data) (s : str) : str :=
  lower_ascii <$> List.filter (λ c, combining ud c =? 0) (nfkd ud s).

Definition TURKIYE : str := u "T" ++ [252] ++ u "rkiye".



(** [flag_url] is there exactly when [iso2] is, and is then the template
    at the lower-cased code. *)
Definition flag_matches_iso2 (ud : unicode_data) (r : medal_row) : Prop :=
  (flag_url r = None ↔ iso2 r = None)
  ∧ ∀ code, iso2 r = Some code →
      flag_url r = Some (FLAG_PREFIX ++ lower ud code ++ FLAG_SUFFIX).

Definition UPDATED : list str := [u "Medal table updated."].
Definition NO_CHANGES : list str := [u "No changes detected (ETag)."].

(** ** Sample data *)

Module Sample.

Definition labels : columns :=
  Index (PStr <$> [u "Rank"; u "NOC"; u "Gold"; u "Silver"; u "Bronze"; u "Total"]).

Definition norway : list pyval :=
  [PInt 1; PStr (u "Norway[a]"); PInt 3; PInt 2; PInt 1; PInt 6].
Definition turkiye : list pyval :=
  [PInt 2; PStr (TURKIYE ++ u "*"); PInt 1; PInt 1; PInt 0; PStr []].
Definition totals : list pyval :=
  [PStr (u "Totals (2 entries)"); PStr (u "Totals (2 entries)");
   PInt 4; PInt 3; PInt 1; PInt 8].

Definition table : html_table := HtmlTable labels [norway; turkiye; totals].

Definition ioc : list ioc_row :=
  [IocRow (PStr (u "NOR")) (PStr (u "Norway"));
   IocRow (PStr (u "TUR")) (PStr (u "Turkey"))].

Definition search_fuzzy (name : str) : option str :=
  if bool_decide (name = u "Norway") then Some (u "NO") else None.

Definition etag : str := u "W/abc".

Definition eu_file : option eu_json :=
  Some (EuJson (Some [Member (Some (u "NOR")) true; Member (Some (u "TUR")) false])).

Definition env_of (forced : bool) (t : html_table) : env :=
  {| force := forced;
     fetched := Ok (Response [t] (Some etag) None);
     ioc_codes := Ok ioc;
     eu_members_file := eu_file;
     now_first := u "2026-02-07T10:00:00+00:00";
     now_second := u "2026-02-07T10:00:01+00:00" |}.

Definition no_files : files := Files None None None.

Definition seen : meta :=
  {| last_etag := Some etag; last_modified := None;
     last_revision_id := Some etag;
     last_update_utc := Some (u "2026-02-06T10:00:00+00:00");
     source_url := Some MEDAL_URL; unmapped_countries := [] |}.

Definition seen_files : files := Files (Some seen) None None.

Definition row_of (name code : str) (g s b : Z) : medal_row :=
  {| rank := None; country := name; noc := code; iso2 := None;
     flag_url := None; gold := g; silver := s; bronze := b;
     total := (g + s + b)%Z; is_eu := None |}.

End Sample.

(** The sample table after [flatten_columns], and the columns
    [parse_medal_table] reads in it. *)
Module SampleColumns.

Definition cols : list str :=
  [u "Rank"; u "NOC"; u "Gold"; u "Silver"; u "Bronze"; u "Total"].


Definition rank_col : option str := Some (u "Rank").
Definition nation_col : option str := Some (u "NOC").
Definition noc_col : option str := None.


End SampleColumns.

(** ** Further predicates *)

Local Open Scope N_scope.

Definition is_upper (c : N) : bool := (65 <=? c) && (c <=? 90).

(** No label, and no level of a label, has a line feed in its text. *)
Definition labels_one_line (c : columns) : bool :=
  match c with
  | Index labels => forallb (λ v, negb (has_line_feed (py_str v))) labels
  | MultiIndex labels =>
      forallb (forallb (λ v, negb (has_line_feed (py_str v)))) labels
  end.

(** A character no step of [normalize_text] touches: no opening bracket,
    no white space, none of the three glyphs. *)
Definition is_solid (c : N) : bool :=
  negb (c =? LBRACKET) && negb (isspace c) && negb (is_glyph c).


(** Sample tables with a column of NOC codes and no column of names. *)
Module SampleCodes.

Definition labels : columns :=
  Index (PStr <$> [u "NOC"; u "Gold"; u "Silver"; u "Bronze"; u "Total"]).

Definition table : html_table :=
  HtmlTable labels
    [[PStr (u "NOR"); PInt 3; PInt 2; PInt 1; PInt 6];
     [PStr (u "TUR"); PInt 1; PInt 1; PInt 0; PInt 2]].

Definition cols : list str :=
  [u "NOC"; u "Gold"; u "Silver"; u "Bronze"; u "Total"].

End SampleCodes.

(** The four medal headers are among the lower-cased labels of a table. *)
Definition has_medal_headers (ud : unicode_data) (df : dataframe) : Prop :=
  ∀ name, name ∈ [u "gold"; u "silver"; u "bronze"; u "total"] →
    name ∈ label_name ud <$> df_columns df.

(** A row of the reference file that [load_ioc_codes] takes. *)
Definition ioc_row_usable (row : ioc_row) : Prop :=
  normalize_text (csv_noc row) ≠ [] ∧ normalize_text (csv_country_name row) ≠ [].

Definition NO_CHANGES_MODIFIED : list str :=
  [u "No changes detected (Last-Modified)."].

(** ** maybe_refresh_ioc_codes *)


(** A column label of a table as read: a value, or a tuple of values when
    the columns are a [MultiIndex]. *)
Inductive label :=
  | Plain (v : pyval)
  | Levels (vs : list pyval).

Global Instance pyval_eq_dec : EqDecision pyval.
Proof. solve_decision. Defined.

Global Instance label_eq_dec : EqDecision label.
Proof. solve_decision. Defined.





Section Refresh.
Context (ud : unicode_data).
(** [str(c)] for a tuple label [c]. *)
Context (tuple_str : list pyval → str).






End Refresh.


(** A table of the reference page. *)
Module SampleIoc.

Definition table : html_table :=
  HtmlTable
    (Index (PStr <$> [u "Code"; u "National Olympic Committee"; u "Other"]))
    [[PStr (u "NOR"); PStr (u "Norway[1]"); PStr (u "x")];
     [PStr (u "TUR"); PStr (u "Turkey"); PStr (u "y")];
     [PStr (u "NOR"); PStr (u "Norway"); PStr (u "z")];
     [PStr (u "obsolete"); PStr (u "Nowhere"); PStr (u "w")];
     [PStr (u "AUT"); PStr (u "Austria"); PStr (u "v")]].


End SampleIoc.

(** * Properties *)

(** ** normalize_text *)

Section Normalize.
Local Open Scope N_scope.
Local Arguments N.eqb : simpl never.
Local Arguments N.leb : simpl never.

Lemma thin_refl s : thin s s.
Proof. induction s; [apply thin_nil|apply thin_keep; auto]. Qed.

Lemma thin_trans s t w : thin s t → thin t w → thin s w.
Proof.
  intros Hst; revert w.
  induction Hst as [|c s t _ IH|c c' s t Hl Hr _ IH]; intros w Htw.
  - exact Htw.
  - apply thin_drop, IH, Htw.
  - inversion Htw as [|? ? ? Htw'|? c'' ? ? Hl' Hr' Htw']; subst.
    + apply thin_drop, IH, Htw'.
    + apply thin_keep; auto.
Qed.

Lemma thin_has_close s t : thin s t → has_close t = true → has_close s = true.
Proof.
  unfold has_close.
  induction 1 as [|c s t _ IH|c c' s t Hl Hr _ IH]; simpl; intros Ht.
  - exact Ht.
  - rewrite IH by exact Ht. apply orb_true_r.
  - apply orb_true_iff in Ht as [Ht|Ht].
    + apply N.eqb_eq in Ht. rewrite <- (Hr (eq_sym Ht)).
      simpl. rewrite N.eqb_refl. reflexivity.
    + rewrite IH by exact Ht. apply orb_true_r.
Qed.

Lemma thin_has_pair s t : thin s t → has_pair t = true → has_pair s = true.
Proof.
  induction 1 as [|c s t _ IH|c c' s t Hl Hr Hst IH]; simpl; intros Ht.
  - exact Ht.
  - rewrite IH by exact Ht. apply orb_true_r.
  - apply orb_true_iff in Ht as [Ht|Ht].
    + apply andb_true_iff in Ht as [Hc Ht].
      apply N.eqb_eq in Hc. rewrite (Hl Hc), N.eqb_refl.
      rewrite (thin_has_close _ _ Hst Ht). reflexivity.
    + rewrite IH by exact Ht. apply orb_true_r.
Qed.

Lemma thin_no_pair s t : thin s t → has_pair s = false → has_pair t = false.
Proof.
  intros Hst Hs. destruct (has_pair t) eqn:Ht; [|reflexivity].
  rewrite (thin_has_pair _ _ Hst Ht) in Hs. discriminate.
Qed.

Lemma closes_has_close s : closes s = true → has_close s = true.
Proof.
  unfold has_close. induction s as [|c r IH]; simpl; [done|].
  rewrite (N.eqb_sym RBRACKET c).
  destruct (c =? RBRACKET); [done|].
  destruct (c =? LF); [done|]. exact IH.
Qed.

Lemma closes_no_line_feed s :
  has_line_feed s = false → closes s = has_close s.
Proof.
  unfold has_line_feed, has_close. induction s as [|c r IH]; simpl; [done|].
  rewrite (N.eqb_sym RBRACKET c), (N.eqb_sym LF c).
  destruct (c =? RBRACKET); [done|].
  destruct (c =? LF); simpl; [done|]. exact IH.
Qed.

Lemma has_marker_has_pair s : has_marker s = true → has_pair s = true.
Proof.
  induction s as [|c r IH]; simpl; [done|].
  intros H. apply orb_true_iff in H as [H|H].
  - apply andb_true_iff in H as [Hc H].
    rewrite Hc, (closes_has_close _ H). reflexivity.
  - rewrite (IH H). apply orb_true_r.
Qed.

Lemma sub_brackets_thin b s : thin s (sub_brackets b s).
Proof.
  revert b. induction s as [|c r IH]; intros b; simpl; [constructor|].
  destruct b.
  - destruct (c =? RBRACKET); apply thin_drop, IH.
  - destruct ((c =? LBRACKET) && closes r).
    + apply thin_drop, IH.
    + apply thin_keep; auto.
Qed.

Lemma replace_nbsp_thin s : thin s (replace_nbsp s).
Proof.
  unfold replace_nbsp. induction s as [|c r IH]; simpl; [constructor|].
  apply thin_keep; [| |exact IH];
    destruct (N.eqb_spec c NBSP) as [->|]; auto; discriminate.
Qed.

Lemma remove_glyphs_thin s : thin s (remove_glyphs s).
Proof.
  unfold remove_glyphs. induction s as [|c r IH]; simpl; [constructor|].
  destruct (negb (is_glyph c)); [apply thin_keep; auto|apply thin_drop, IH].
Qed.

Lemma sub_spaces_thin b s : thin s (sub_spaces b s).
Proof.
  revert b. induction s as [|c r IH]; intros b; simpl; [constructor|].
  destruct (isspace c) eqn:Hc.
  - destruct b; [apply thin_drop, IH|].
    apply thin_keep; [discriminate|discriminate|apply IH].
  - apply thin_keep; auto.
Qed.

Lemma lstrip_thin s : thin s (lstrip s).
Proof.
  induction s as [|c r IH]; simpl; [constructor|].
  destruct (isspace c); [apply thin_drop, IH|apply thin_refl].
Qed.

Lemma rstrip_thin s : thin s (rstrip s).
Proof.
  induction s as [|c r IH]; simpl; [constructor|].
  destruct (rstrip r) as [|c' r'].
  - destruct (isspace c); [apply thin_drop, IH|apply thin_keep; auto].
  - apply thin_keep; auto.
Qed.

Lemma sub_brackets_no_pair b s :
  has_line_feed s = false → has_pair (sub_brackets b s) = false.
Proof.
  revert b. induction s as [|c r IH]; intros b Hlf; simpl; [done|].
  assert (Hr : has_line_feed r = false).
  { unfold has_line_feed in *. simpl in Hlf.
    apply orb_false_iff in Hlf as [_ Hlf]. exact Hlf. }
  destruct b.
  - destruct (c =? RBRACKET); apply IH, Hr.
  - destruct (c =? LBRACKET) eqn:Hc; simpl.
    + destruct (closes r) eqn:Hcl; [apply IH, Hr|].
      simpl. rewrite Hc, (IH false Hr), orb_false_r. simpl.
      rewrite (closes_no_line_feed _ Hr) in Hcl.
      destruct (has_close (sub_brackets false r)) eqn:Hx; [|reflexivity].
      rewrite (thin_has_close _ _ (sub_brackets_thin false r) Hx) in Hcl.
      discriminate.
    + rewrite Hc. simpl. apply IH, Hr.
Qed.

Lemma sub_brackets_fixed s : has_marker s = false → sub_brackets false s = s.
Proof.
  induction s as [|c r IH]; simpl; [done|].
  intros H. apply orb_false_iff in H as [-> H].
  rewrite (IH H). reflexivity.
Qed.

Lemma forallb_sub_spaces (p : N → bool) b s :
  p SPACE = true → forallb p s = true → forallb p (sub_spaces b s) = true.
Proof.
  intros Hp. revert b. induction s as [|c r IH]; intros b; simpl; [done|].
  intros H. apply andb_true_iff in H as [Hc Hr].
  destruct (isspace c); [destruct b|]; simpl; rewrite ?Hp, ?Hc; simpl; auto.
Qed.

Lemma forallb_lstrip (p : N → bool) s :
  forallb p s = true → forallb p (lstrip s) = true.
Proof.
  induction s as [|c r IH]; simpl; [done|].
  intros H. destruct (isspace c); [|exact H].
  apply andb_true_iff in H as [_ Hr]. exact (IH Hr).
Qed.

Lemma forallb_rstrip (p : N → bool) s :
  forallb p s = true → forallb p (rstrip s) = true.
Proof.
  induction s as [|c r IH]; simpl; [done|].
  intros H. apply andb_true_iff in H as [Hc Hr]. specialize (IH Hr).
  destruct (rstrip r) as [|c' r'].
  - destruct (isspace c); simpl; [done|]. rewrite Hc. reflexivity.
  - change (forallb p (c :: c' :: r')) with (p c && forallb p (c' :: r')).
    rewrite Hc, IH. reflexivity.
Qed.

Lemma plain_after_replacing s :
  forallb is_plain (remove_glyphs (replace_nbsp s)) = true.
Proof.
  unfold remove_glyphs, replace_nbsp, is_plain.
  induction s as [|c r IH]; simpl; [done|].
  destruct (N.eqb_spec c NBSP) as [->|Hc].
  - simpl. exact IH.
  - destruct (is_glyph c) eqn:Hg; simpl; [exact IH|].
    apply N.eqb_neq in Hc. rewrite Hc, Hg. simpl. exact IH.
Qed.

Lemma replace_nbsp_fixed s : forallb is_plain s = true → replace_nbsp s = s.
Proof.
  unfold replace_nbsp, is_plain. induction s as [|c r IH]; simpl; [done|].
  intros H. apply andb_true_iff in H as [Hc Hr].
  apply andb_true_iff in Hc as [Hc _]. apply negb_true_iff in Hc.
  rewrite Hc. f_equal. exact (IH Hr).
Qed.

Lemma remove_glyphs_fixed s : forallb is_plain s = true → remove_glyphs s = s.
Proof.
  unfold remove_glyphs, is_plain. induction s as [|c r IH]; simpl; [done|].
  intros H. apply andb_true_iff in H as [Hc Hr].
  apply andb_true_iff in Hc as [_ Hc]. rewrite Hc, (IH Hr). reflexivity.
Qed.

Lemma spaced_sub_spaces b s : spaced b (sub_spaces b s) = true.
Proof.
  revert b. induction s as [|c r IH]; intros b; simpl; [done|].
  destruct (isspace c) eqn:Hc.
  - destruct b; [apply IH|]. simpl. apply IH.
  - simpl. rewrite Hc. apply IH.
Qed.

Lemma spaced_fixed b s : spaced b s = true → sub_spaces b s = s.
Proof.
  revert b. induction s as [|c r IH]; intros b; simpl; [done|].
  destruct (isspace c).
  - intros H. apply andb_true_iff in H as [H Hr].
    apply andb_true_iff in H as [Hb Hc].
    apply negb_true_iff in Hb. apply N.eqb_eq in Hc. subst b c.
    rewrite (IH _ Hr). reflexivity.
  - intros H. rewrite (IH _ H). reflexivity.
Qed.

(** What precedes a string that starts with no white space does not matter. *)
Lemma spaced_lstrip b b' s : spaced b s = true → spaced b' (lstrip s) = true.
Proof.
  revert b. induction s as [|c r IH]; intros b; simpl; [done|].
  destruct (isspace c) eqn:Hc.
  - intros H. apply andb_true_iff in H as [_ Hr]. exact (IH _ Hr).
  - intros H. simpl. rewrite Hc. exact H.
Qed.

Lemma spaced_rstrip b s : spaced b s = true → spaced b (rstrip s) = true.
Proof.
  revert b. induction s as [|c r IH]; intros b; simpl; [done|].
  destruct (isspace c) eqn:Hc.
  - intros H. apply andb_true_iff in H as [H Hr]. specialize (IH _ Hr).
    destruct (rstrip r) as [|c' r']; [done|].
    change (spaced b (c :: c' :: r'))
      with (if isspace c then negb b && (c =? SPACE) && spaced true (c' :: r')
            else spaced false (c' :: r')).
    rewrite Hc, H, IH. reflexivity.
  - intros H. specialize (IH _ H).
    destruct (rstrip r) as [|c' r']; [simpl; rewrite Hc; reflexivity|].
    change (spaced b (c :: c' :: r'))
      with (if isspace c then negb b && (c =? SPACE) && spaced true (c' :: r')
            else spaced false (c' :: r')).
    rewrite Hc. exact IH.
Qed.

Lemma head_lstrip s c : head (lstrip s) = Some c → isspace c = false.
Proof.
  induction s as [|a r IH]; simpl; [done|].
  destruct (isspace a) eqn:Ha; [exact IH|].
  simpl. intros [= <-]. exact Ha.
Qed.

Lemma head_rstrip s : head (rstrip s) = None ∨ head (rstrip s) = head s.
Proof.
  destruct s as [|c r]; simpl; [by left|].
  destruct (rstrip r); [destruct (isspace c)|]; auto.
Qed.

Lemma last_rstrip s c : last (rstrip s) = Some c → isspace c = false.
Proof.
  induction s as [|a r IH]; simpl; [done|].
  destruct (rstrip r) as [|c' r'].
  - destruct (isspace a) eqn:Ha; simpl; [done|]. intros [= <-]. exact Ha.
  - exact IH.
Qed.

Lemma rstrip_idemp s : rstrip (rstrip s) = rstrip s.
Proof.
  induction s as [|a r IH]; simpl; [done|].
  destruct (rstrip r) as [|c' r'] eqn:Hr.
  - destruct (isspace a) eqn:Ha; simpl; [done|]. rewrite Ha. reflexivity.
  - change (rstrip (a :: c' :: r'))
      with (match rstrip (c' :: r') with
            | [] => if isspace a then [] else [a]
            | x => a :: x
            end).
    rewrite IH. reflexivity.
Qed.

Lemma lstrip_fixed s :
  (∀ c, head s = Some c → isspace c = false) → lstrip s = s.
Proof.
  destruct s as [|a r]; simpl; [done|].
  intros H. rewrite (H a eq_refl). reflexivity.
Qed.

Lemma head_strip s c : head (strip s) = Some c → isspace c = false.
Proof.
  unfold strip. intros H.
  destruct (head_rstrip (lstrip s)) as [E|E]; rewrite E in H; [done|].
  exact (head_lstrip _ _ H).
Qed.

Lemma strip_idemp s : strip (strip s) = strip s.
Proof.
  unfold strip at 1. rewrite (lstrip_fixed (strip s)) by apply head_strip.
  unfold strip. apply rstrip_idemp.
Qed.

Lemma trimmed_strip s : trimmed (strip s) = true.
Proof.
  unfold trimmed.
  destruct (head (strip s)) as [a|] eqn:Ha; [|done].
  destruct (last (strip s)) as [b|] eqn:Hb; [|done].
  rewrite (head_strip _ _ Ha), (last_rstrip _ _ Hb). reflexivity.
Qed.

Lemma normalize_text_unfold v :
  normalize_text v =
    match v with
    | PNone => []
    | _ => strip (sub_spaces false
                    (remove_glyphs (replace_nbsp (sub_brackets false (py_str v)))))
    end.
Proof. destruct v; reflexivity. Qed.

Lemma normalize_text_plain v : forallb is_plain (normalize_text v) = true.
Proof.
  rewrite normalize_text_unfold. destruct v; [done|..];
    apply forallb_rstrip, forallb_lstrip, forallb_sub_spaces;
    solve [reflexivity | apply plain_after_replacing].
Qed.

Lemma normalize_text_spaced v : spaced false (normalize_text v) = true.
Proof.
  rewrite normalize_text_unfold. destruct v; [done|..];
    apply spaced_rstrip, (spaced_lstrip false), spaced_sub_spaces.
Qed.

Lemma normalize_text_trimmed v : trimmed (normalize_text v) = true.
Proof.
  rewrite normalize_text_unfold. destruct v; [done|..]; apply trimmed_strip.
Qed.

Lemma normalize_text_thin v : v ≠ PNone → thin (py_str v) (normalize_text v).
Proof.
  intros Hv. rewrite normalize_text_unfold.
  assert (H : thin (py_str v)
                (strip (sub_spaces false
                   (remove_glyphs (replace_nbsp (sub_brackets false (py_str v))))))).
  { unfold strip.
    eapply thin_trans; [|apply rstrip_thin].
    eapply thin_trans; [|apply lstrip_thin].
    eapply thin_trans; [|apply sub_spaces_thin].
    eapply thin_trans; [|apply remove_glyphs_thin].
    eapply thin_trans; [|apply replace_nbsp_thin].
    apply sub_brackets_thin. }
  destruct v; [done|exact H..].
Qed.

Lemma normalize_text_no_marker v :
  has_line_feed (py_str v) = false → has_marker (normalize_text v) = false.
Proof.
  intros Hlf. destruct (has_marker (normalize_text v)) eqn:Hm; [|reflexivity].
  apply has_marker_has_pair in Hm.
  rewrite normalize_text_unfold in Hm. destruct v; [done|..];
    (assert (Hp : has_pair (sub_brackets false (py_str _)) = false)
       by (apply sub_brackets_no_pair; exact Hlf));
    (eapply thin_no_pair in Hp;
     [rewrite Hp in Hm; discriminate|]);
    unfold strip;
    (eapply thin_trans; [|apply rstrip_thin]);
    (eapply thin_trans; [|apply lstrip_thin]);
    (eapply thin_trans; [|apply sub_spaces_thin]);
    (eapply thin_trans; [|apply remove_glyphs_thin]);
    apply replace_nbsp_thin.
Qed.

(** A normalised text without a bracketed marker is a fixed point. *)
Lemma normalize_text_fixed v :
  has_marker (normalize_text v) = false →
  normalize_text (PStr (normalize_text v)) = normalize_text v.
Proof.
  intros Hm. rewrite (normalize_text_unfold (PStr _)). cbn [py_str].
  rewrite (sub_brackets_fixed _ Hm).
  rewrite (replace_nbsp_fixed _ (normalize_text_plain v)).
  rewrite (remove_glyphs_fixed _ (normalize_text_plain v)).
  rewrite (spaced_fixed _ _ (normalize_text_spaced v)).
  rewrite normalize_text_unfold. destruct v; [reflexivity|apply strip_idemp..].
Qed.

End Normalize.

(** ** Values on small inputs *)

Example normalize_united_states :
  normalize_text (PStr (u "United States[1]" ++ [NBSP; DAGGER])) = u "United States".
Proof. reflexivity. Qed.

Example normalize_line_feed :
  normalize_text (PStr (u "[a" ++ [LF] ++ u "b]")) = u "[a b]"
  ∧ normalize_text (PStr (u "[a b]")) = [].
Proof. split; reflexivity. Qed.

Example name_key_sao_tome :
  name_key Latin1.data (PStr (u "S" ++ [227] ++ u "o Tom" ++ [233])) = u "sao tome".
Proof. vm_compute. reflexivity. Qed.

Example to_int_samples :
  to_int PNone = 0%Z ∧ to_int (PStr (u "n/a")) = 0%Z
  ∧ to_int (PStr (u "1,234[a]")) = 1234%Z ∧ to_int (PInt (-3)) = 3%Z
  ∧ to_int (PFloat (u "3.0")) = 30%Z ∧ to_int (PStr (u "007")) = 7%Z.
Proof. vm_compute. tauto. Qed.

Example sample_run_ranks :
  (λ r, (noc r, rank r, is_eu r))
    <$> default []
          (MEDALS_CSV
             (main Latin1.data Sample.search_fuzzy
                (Sample.env_of false Sample.table) Sample.no_files).1.2)
  = [(u "EU27", Some 1%Z, Some true); (u "NOR", Some 1%Z, Some true);
     (u "TUR", Some 3%Z, Some false)].
Proof. vm_compute. reflexivity. Qed.

(** ** compute_rank *)

Section Ranking.
Local Open Scope Z_scope.

Lemma str_compare_refl a : str_compare a a = Eq.
Proof.
  induction a as [|x a IH]; simpl; [done|].
  rewrite N.compare_refl. exact IH.
Qed.


Lemma str_compare_antisym a b : str_compare b a = CompOpp (str_compare a b).
Proof.
  revert b. induction a as [|x a IH]; intros [|y b]; simpl; try done.
  rewrite (N.compare_antisym x y).
  destruct (x ?= y)%N; simpl; auto.
Qed.

Lemma str_le_total a b : str_le a b ∨ str_le b a.
Proof.
  unfold str_le. rewrite (str_compare_antisym a b).
  destruct (str_compare a b); simpl; auto.
Qed.

Lemma str_le_trans a b c : str_le a b → str_le b c → str_le a c.
Proof.
  unfold str_le. revert b c.
  induction a as [|x a IH]; intros [|y b] [|z c]; simpl; try done.
  destruct (N.compare_spec x y) as [->|Hxy|Hxy]; [| |done].
  - destruct (N.compare_spec y z) as [->|Hyz|Hyz]; [apply IH|done|done].
  - destruct (N.compare_spec y z) as [->|Hyz|Hyz]; [| |done]; intros _ _.
    + destruct (N.compare_spec x z); [exfalso; lia|done|exfalso; lia].
    + destruct (N.compare_spec x z); [exfalso; lia|done|exfalso; lia].
Qed.

(** Decides a goal in the shape of [precedes] from arithmetic facts. *)
Ltac lex_solve :=
  first [ lia | eassumption
        | left; lex_solve | split; [lia | lex_solve] | right; lex_solve ].

Ltac lex_cases H :=
  destruct H as [?|[? [?|[? [?|[? [?|[? ?]]]]]]]].

Lemma precedes_total a b : precedes a b ∨ precedes b a.
Proof.
  unfold precedes.
  destruct (str_le_total (country a) (country b));
    destruct (Z.lt_total (gold a) (gold b)) as [?|[?|?]];
    destruct (Z.lt_total (silver a) (silver b)) as [?|[?|?]];
    destruct (Z.lt_total (bronze a) (bronze b)) as [?|[?|?]];
    destruct (Z.lt_total (total a) (total b)) as [?|[?|?]];
    first [left; lex_solve | right; lex_solve].
Qed.

Lemma precedes_trans a b c : precedes a b → precedes b c → precedes a c.
Proof.
  unfold precedes. intros Hab Hbc.
  lex_cases Hab; lex_cases Hbc; try lex_solve.
  assert (str_le (country a) (country c)) by (eapply str_le_trans; eassumption).
  lex_solve.
Qed.

(** A row between two rows of one medal tuple has that tuple. *)
Lemma precedes_between p l r :
  precedes p l → precedes l r → medal_key p = medal_key r →
  medal_key l = medal_key r.
Proof.
  unfold precedes, medal_key. intros Hpl Hlr [= ? ? ? ?].
  lex_cases Hpl; lex_cases Hlr; try (exfalso; lia).
  assert (gold l = gold r ∧ silver l = silver r ∧ bronze l = bronze r
          ∧ total l = total r) as (-> & -> & -> & ->) by lia.
  reflexivity.
Qed.

(** The comparison of [sorted] decides [precedes]. *)
Lemma key_ltb_false a b : key_ltb b a = false → precedes a b.
Proof.
  unfold key_ltb, key_compare, sort_key, precedes, str_le.
  rewrite (str_compare_antisym (country a) (country b)).
  destruct (Z.compare_spec (- gold b) (- gold a)); try done; try lia.
  destruct (Z.compare_spec (- silver b) (- silver a)); try done; try lia.
  destruct (Z.compare_spec (- bronze b) (- bronze a)); try done; try lia.
  destruct (Z.compare_spec (- total b) (- total a)); try done; try lia.
  destruct (str_compare (country a) (country b)) eqn:E; simpl; try done;
    intros _; (do 4 (right; split; [lia|])); done.
Qed.

Lemma key_ltb_true a b : key_ltb a b = true → precedes a b.
Proof.
  unfold key_ltb, key_compare, sort_key, precedes, str_le.
  destruct (Z.compare_spec (- gold a) (- gold b)); try done; try lia.
  destruct (Z.compare_spec (- silver a) (- silver b)); try done; try lia.
  destruct (Z.compare_spec (- bronze a) (- bronze b)); try done; try lia.
  destruct (Z.compare_spec (- total a) (- total b)); try done; try lia.
  destruct (str_compare (country a) (country b)) eqn:E; try done; intros _;
    (do 4 (right; split; [lia|])); done.
Qed.

Lemma insert_row_perm x l : insert_row x l ≡ₚ x :: l.
Proof.
  induction l as [|y r IH]; simpl; [done|].
  destruct (key_ltb y x); [|done].
  rewrite IH. apply Permutation_swap.
Qed.

Lemma sorted_rows_perm l : sorted_rows l ≡ₚ l.
Proof.
  induction l as [|x l IH]; simpl; [done|].
  rewrite insert_row_perm, IH. done.
Qed.

Lemma insert_row_sorted x l :
  StronglySorted precedes l → StronglySorted precedes (insert_row x l).
Proof.
  induction 1 as [|y r Hr IH Hy]; simpl.
  - repeat constructor.
  - destruct (key_ltb y x) eqn:E.
    + constructor; [exact IH|].
      rewrite insert_row_perm. constructor; [|exact Hy].
      apply key_ltb_true, E.
    + apply key_ltb_false in E.
      constructor; [constructor; assumption|].
      constructor; [exact E|].
      eapply Forall_impl; [exact Hy|].
      intros z Hz. eapply precedes_trans; eassumption.
Qed.

Lemma sorted_rows_sorted l : StronglySorted precedes (sorted_rows l).
Proof.
  induction l as [|x l IH]; simpl; [constructor|].
  apply insert_row_sorted, IH.
Qed.

Lemma rank_loop_drop_rank idx rk prev l :
  drop_rank <$> rank_loop idx rk prev l = drop_rank <$> l.
Proof.
  revert idx rk prev. induction l as [|r l IH]; intros idx rk prev; simpl; [done|].
  destruct (bool_decide (Some (medal_key r) ≠ prev)); simpl; rewrite IH; done.
Qed.

Lemma sorted_drop_rank l :
  StronglySorted precedes (drop_rank <$> l) → StronglySorted precedes l.
Proof.
  induction l as [|r l IH]; simpl; [constructor|].
  intros H. apply StronglySorted_inv in H as [Hl Hr].
  constructor; [exact (IH Hl)|].
  apply (proj1 (Forall_fmap _ _ _)) in Hr.
  eapply Forall_impl; [exact Hr|]. intros x Hx. exact Hx.
Qed.

Lemma drop_rank_sorted l :
  StronglySorted precedes l → StronglySorted precedes (drop_rank <$> l).
Proof.
  induction 1 as [|r l Hl IH Hr]; simpl; constructor; [exact IH|].
  apply (proj2 (Forall_fmap _ _ _)).
  eapply Forall_impl; [exact Hr|]. intros x Hx. exact Hx.
Qed.

Lemma first_with_app_l k pre rest :
  k ∈ medal_key <$> pre → first_with k (pre ++ rest) = first_with k pre.
Proof.
  induction pre as [|r pre IH]; simpl; [by intros ?%elem_of_nil|].
  intros H. case_bool_decide; [done|].
  apply elem_of_cons in H as [H|H]; [congruence|].
  rewrite (IH H). done.
Qed.

Lemma first_with_app_r k pre rest :
  k ∉ medal_key <$> pre →
  first_with k (pre ++ rest) = (length pre + first_with k rest)%nat.
Proof.
  induction pre as [|r pre IH]; simpl; [done|].
  intros H. apply not_elem_of_cons in H as [H1 H2].
  case_bool_decide; [congruence|]. rewrite (IH H2). done.
Qed.

Lemma first_with_fmap k l l' :
  medal_key <$> l = medal_key <$> l' → first_with k l = first_with k l'.
Proof.
  revert l'. induction l as [|r l IH]; intros [|r' l']; try done.
  rewrite !fmap_cons. intros E.
  assert (E1 : medal_key r = medal_key r') by congruence.
  assert (E2 : medal_key <$> l = medal_key <$> l') by congruence.
  simpl. rewrite E1, (IH _ E2). done.
Qed.

(** In a sorted table the rows of one medal tuple are adjacent: a tuple
    that differs from the one just before it has not occurred earlier. *)
Lemma sorted_new_tuple pre last_row row rest :
  StronglySorted precedes ((pre ++ [last_row]) ++ row :: rest) →
  medal_key row ≠ medal_key last_row →
  medal_key row ∉ medal_key <$> (pre ++ [last_row]).
Proof.
  intros Hs Hne Hin.
  apply list_elem_of_fmap in Hin as (p & Hk & Hp).
  apply elem_of_app in Hp as [Hp|Hp]; [|apply list_elem_of_singleton in Hp; congruence].
  rewrite <- (assoc_L (++)) in Hs.
  assert (Hpl : precedes p last_row).
  { apply (StronglySorted_app_1_elem_of _ _ _ _ _ Hs); [done|left]. }
  assert (Hlr : precedes last_row row).
  { apply StronglySorted_app_1_r in Hs.
    apply (StronglySorted_app_1_elem_of _ [last_row] (row :: rest)); [done|left..]. }
  apply Hne. symmetry. apply (precedes_between p last_row row); congruence.
Qed.

Lemma rank_loop_spec rest : ∀ pre idx rk prev,
  StronglySorted precedes (pre ++ rest) →
  idx = Z.of_nat (length pre) + 1 →
  match last pre with
  | None => prev = None
  | Some last_row =>
      prev = Some (medal_key last_row)
      ∧ rk = Z.of_nat (first_with (medal_key last_row) pre) + 1
  end →
  ∀ i r, rank_loop idx rk prev rest !! i = Some r →
    rank r = Some (Z.of_nat (first_with (medal_key r) (pre ++ rest)) + 1).
Proof.
  induction rest as [|row rest IH]; intros pre idx rk prev Hs Hidx Hprev i r;
    simpl; [done|].
  set (key := medal_key row).
  assert (Hnext :
    ∀ rk', rk' = Z.of_nat (first_with key (pre ++ [row])) + 1 →
    ∀ i r, (set_rank rk' row :: rank_loop (idx + 1) rk' (Some key) rest) !! i = Some r →
      rank r = Some (Z.of_nat (first_with (medal_key r) (pre ++ row :: rest)) + 1)).
  { intros rk' Hrk' [|j] r'; simpl.
    - intros [= <-]. change (medal_key (set_rank rk' row)) with key.
      simpl. f_equal.
      rewrite (cons_middle row pre rest), (assoc_L (++)).
      rewrite first_with_app_l; [exact Hrk'|].
      rewrite fmap_app. apply elem_of_app. right. left.
    - intros Hj. rewrite (cons_middle row pre rest), (assoc_L (++)).
      apply (IH (pre ++ [row]) (idx + 1) rk' (Some key)) with (i := j).
      + rewrite <- (assoc_L (++)). exact Hs.
      + rewrite length_app. simpl. lia.
      + rewrite last_snoc. split; [done|exact Hrk'].
      + exact Hj. }
  case_bool_decide as Hne.
  - apply Hnext. subst idx.
    destruct (last pre) as [last_row|] eqn:Hlast.
    + destruct Hprev as [-> _].
      apply last_Some in Hlast as [pre' ->].
      rewrite first_with_app_r.
      * simpl. rewrite bool_decide_eq_true_2 by done. lia.
      * apply (sorted_new_tuple pre' last_row row rest); [exact Hs|].
        intros E. apply Hne. unfold key. rewrite E. done.
    + apply last_None in Hlast. subst pre. simpl.
      rewrite bool_decide_eq_true_2 by done. done.
  - subst prev. apply Hnext.
    destruct (last pre) as [last_row|] eqn:Hlast; [|done].
    destruct Hprev as [Hp ->].
    assert (Hk : key = medal_key last_row) by congruence.
    apply last_Some in Hlast as [pre' ->].
    rewrite <- Hk. rewrite (first_with_app_l key (pre' ++ [last_row]) [row]); [done|].
    rewrite fmap_app. apply elem_of_app. right. rewrite Hk. left.
Qed.

Lemma rank_loop_keys idx rk prev l :
  medal_key <$> rank_loop idx rk prev l = medal_key <$> l.
Proof.
  revert idx rk prev. induction l as [|r l IH]; intros idx rk prev; simpl; [done|].
  destruct (bool_decide (Some (medal_key r) ≠ prev)); simpl; rewrite IH; done.
Qed.


End Ranking.

(** ** name_key *)

Section NameKeyFacts.
Local Open Scope N_scope.

Ltac bounds :=
  repeat match goal with
  | |- context [(?a <=? ?b)] => destruct (N.leb_spec a b)
  | |- context [(?a <? ?b)] => destruct (N.ltb_spec a b)
  | |- context [(?a =? ?b)] => destruct (N.eqb_spec a b)
  | H : context [(?a <=? ?b)] |- _ => destruct (N.leb_spec a b)
  | H : context [(?a <? ?b)] |- _ => destruct (N.ltb_spec a b)
  end; simpl in *; try reflexivity; try discriminate; try lia.

Lemma is_key_char_ascii c : is_key_char c = true → is_ascii c = true.
Proof. unfold is_key_char, is_ascii, SPACE. bounds. Qed.

Lemma is_key_char_lower c : is_key_char (lower_ascii c) = is_key_char c.
Proof.
  unfold lower_ascii.
  destruct ((65 <=? c) && (c <=? 90)) eqn:E; [|done].
  unfold is_key_char. rewrite E.
  apply andb_true_iff in E as [H1 H2]. apply N.leb_le in H1, H2.
  replace (97 <=? c + 32) with true by (symmetry; apply N.leb_le; lia).
  replace (c + 32 <=? 122) with true by (symmetry; apply N.leb_le; lia).
  simpl. rewrite orb_true_r. done.
Qed.

Lemma filter_key_chars_ascii s :
  forallb is_ascii (List.filter is_key_char s) = true.
Proof.
  induction s as [|c s IH]; simpl; [done|].
  destruct (is_key_char c) eqn:E; [|exact IH].
  simpl. rewrite (is_key_char_ascii _ E), IH. done.
Qed.

Lemma filter_key_chars_lower s :
  lower_ascii <$> List.filter is_key_char s
  = List.filter is_key_char (lower_ascii <$> s).
Proof.
  induction s as [|c s IH]; [done|].
  rewrite fmap_cons. simpl. rewrite is_key_char_lower.
  destruct (is_key_char c); [rewrite fmap_cons|]; rewrite IH; done.
Qed.

Lemma filter_marks_ascii ud s :
  ascii_exact ud → forallb is_ascii s = true →
  List.filter (λ c, combining ud c =? 0) s = s.
Proof.
  intros Hud. induction s as [|c s IH]; simpl; [done|].
  intros H. apply andb_true_iff in H as [Hc Hs].
  rewrite (combining_ascii ud Hud c Hc). simpl. rewrite (IH Hs). done.
Qed.

(** The key is a function of the folded text of the overridden label. *)
Lemma name_key_fold ud v :
  ascii_exact ud →
  name_key ud v
  = strip (List.filter is_key_char
             (fold_marks ud (default (normalize_text v)
                                     (NAME_OVERRIDES !! normalize_text v)))).
Proof.
  intros Hud. unfold name_key, fold_marks.
  rewrite (lower_ascii_text ud Hud) by apply filter_key_chars_ascii.
  rewrite filter_key_chars_lower. done.
Qed.

Lemma latin1_exact : ascii_exact Latin1.data.
Proof.
  split; simpl.
  - induction s as [|c s IH]; [done|].
    intros H. simpl in H. apply andb_true_iff in H as [Hc Hs].
    rewrite bind_cons, (IH Hs).
    unfold Latin1.decomposition, is_ascii in *.
    destruct (N.ltb_spec c 160); [done|].
    apply N.ltb_lt in Hc. lia.
  - intros c Hc. unfold Latin1.class, is_ascii in *.
    destruct (N.ltb_spec c 768); [done|].
    apply N.ltb_lt in Hc. lia.
  - induction s as [|c s IH]; [done|].
    intros H. simpl in H. apply andb_true_iff in H as [Hc Hs].
    rewrite !fmap_cons, (IH Hs). f_equal.
    unfold Latin1.lower_char, lower_ascii, is_ascii in *.
    apply N.ltb_lt in Hc. bounds.
Qed.

Lemma name_key_turkiye ud :
  ascii_exact ud →
  name_key ud (PStr TURKIYE) = u "turkey"
  ∧ name_key ud (PStr (u "turkiye")) = u "turkiye".
Proof.
  intros Hud. rewrite !name_key_fold by done. unfold fold_marks.
  assert (E1 : default (normalize_text (PStr TURKIYE))
                 (NAME_OVERRIDES !! normalize_text (PStr TURKIYE)) = u "Turkey")
    by (vm_compute; reflexivity).
  assert (E2 : default (normalize_text (PStr (u "turkiye")))
                 (NAME_OVERRIDES !! normalize_text (PStr (u "turkiye")))
               = u "turkiye")
    by (vm_compute; reflexivity).
  rewrite E1, E2.
  rewrite !(nfkd_ascii ud Hud) by reflexivity.
  rewrite !(filter_marks_ascii ud) by (done || reflexivity).
  split; reflexivity.
Qed.

(** C3 (as stated): on the data of the Latin-1 range the keys of
    ["Türkiye"] and ["turkiye"] differ. *)
Lemma name_key_turkiye_differs :
  name_key Latin1.data (PStr TURKIYE) ≠ name_key Latin1.data (PStr (u "turkiye")).
Proof. vm_compute. discriminate. Qed.

(** C3 (amended). Over Unicode data that is exact on ASCII text, two inputs
    whose normalised texts are no keys of the override table and differ only
    in diacritical marks and letter case have the same key. The override
    table is looked up with the exact normalised text, before the marks are
    removed: the key of ["Türkiye"] is ["turkey"], the key of ["turkiye"]
    is ["turkiye"]. *)
Theorem name_key_insensitive (ud : unicode_data) :
  ascii_exact ud →
  (∀ x y,
     NAME_OVERRIDES !! normalize_text x = None →
     NAME_OVERRIDES !! normalize_text y = None →
     fold_marks ud (normalize_text x) = fold_marks ud (normalize_text y) →
     name_key ud x = name_key ud y)
  ∧ name_key ud (PStr TURKIYE) = u "turkey"
  ∧ name_key ud (PStr (u "turkiye")) = u "turkiye".
Proof.
  intros Hud. split; [|apply name_key_turkiye, Hud].
  intros x y Hx Hy Hxy.
  rewrite !name_key_fold, Hx, Hy by done. simpl. rewrite Hxy. done.
Qed.

Lemma name_key_insensitive_witness :
  name_key Latin1.data (PStr (u "S" ++ [227] ++ u "o Tom" ++ [233]))
  = name_key Latin1.data (PStr (u "sao tome")).
Proof.
  apply (proj1 (name_key_insensitive Latin1.data latin1_exact));
    vm_compute; reflexivity.
Defined.

End NameKeyFacts.

(** ** Row extraction *)

Section ExtractionFacts.
Local Open Scope Z_scope.

Lemma int_of_digits_nonneg text : 0 ≤ int_of_digits text.
Proof.
  unfold int_of_digits.
  assert (H : ∀ acc, 0 ≤ acc →
    0 ≤ foldl (λ acc c, acc * 10 + Z.of_N (c - 48)) acc text).
  { induction text as [|c text IH]; intros acc Hacc; simpl; [done|].
    apply IH. lia. }
  apply H. done.
Qed.

Lemma to_int_nonneg v : 0 ≤ to_int v.
Proof.
  unfold to_int. destruct (truthy _); [apply int_of_digits_nonneg|done].
Qed.


Lemma iso2_overrides_nonempty name code :
  ISO2_OVERRIDES !! name = Some code → code ≠ [].
Proof.
  revert name code. change (map_Forall (λ _ code, code ≠ []) ISO2_OVERRIDES).
  unfold ISO2_OVERRIDES.
  repeat (rewrite list_to_map_cons; apply map_Forall_insert_2; [discriminate|]).
  apply map_Forall_empty.
Qed.

Lemma iso2_from_country_nonempty (search_fuzzy : str → option str) name code :
  (∀ name code, search_fuzzy name = Some code → code ≠ []) →
  iso2_from_country search_fuzzy name = Some code → code ≠ [].
Proof.
  intros Hfz. unfold iso2_from_country.
  destruct (negb (truthy name)); [done|].
  destruct (ISO2_OVERRIDES !! name) as [c|] eqn:E.
  - intros [= <-]. exact (iso2_overrides_nonempty _ _ E).
  - apply Hfz.
Qed.

Lemma flag_url_of_matches (ud : unicode_data) iso2 :
  (∀ code, iso2 = Some code → code ≠ []) →
  (flag_url_of ud iso2 = None ↔ iso2 = None)
  ∧ ∀ code, iso2 = Some code →
      flag_url_of ud iso2 = Some (FLAG_PREFIX ++ lower ud code ++ FLAG_SUFFIX).
Proof.
  intros H. destruct iso2 as [[|c code]|]; simpl.
  - by destruct (H [] eq_refl).
  - split; [done|]. intros ? [= <-]. done.
  - done.
Qed.

Section Loop.
Context (ud : unicode_data) (search_fuzzy : str → option str).
Context (cols : list str) (rank_col nation_col noc_col : option str).
Context (name_to_noc noc_to_name : gmap str str).

(** What an extracted row holds. *)
Lemma extract_row_Extracted row r :
  extract_row ud search_fuzzy cols rank_col nation_col noc_col
    name_to_noc noc_to_name row = Extracted r →
  let cell := λ name, to_int (row_get cols row (find_col ud cols [name])) in
  gold r = cell (u "gold") ∧ silver r = cell (u "silver")
  ∧ bronze r = cell (u "bronze")
  ∧ total r = (if cell (u "total") =? 0
               then cell (u "gold") + cell (u "silver") + cell (u "bronze")
               else cell (u "total"))
  ∧ iso2 r = iso2_from_country search_fuzzy (country r)
  ∧ flag_url r = flag_url_of ud (iso2 r)
  ∧ noc r ≠ [] ∧ is_eu r = None.
Proof.
  unfold extract_row.
  destruct (negb (truthy _) || startswith _ _); [done|].
  destruct (if negb (truthy _) || negb (_ =? 3)%nat then _ else _)
    as [[|c code]|]; try done.
  intros [= <-]. simpl. done.
Qed.


End Loop.

Lemma extracted_rows_elem xs r :
  r ∈ extracted_rows xs ↔ Extracted r ∈ xs.
Proof.
  unfold extracted_rows. rewrite list_elem_of_omap. split.
  - intros (x & Hx & E). destruct x; simplify_eq. done.
  - intros H. exists (Extracted r). done.
Qed.





Lemma parse_medal_table_rows ud search_fuzzy tables m1 m2 rows unmapped r :
  parse_medal_table ud search_fuzzy tables m1 m2 = Ok (rows, unmapped) →
  r ∈ rows →
  ∃ cols rk nation nc row,
    extract_row ud search_fuzzy cols rk nation nc m1 m2 row = Extracted r.
Proof.
  unfold parse_medal_table, extractions.
  destruct (pick_medal_table ud tables) as [df|]; [|done].
  destruct (medal_columns ud (flatten_columns_again df)) as [[rk nation] nc].
  intros [= <- <-] Hr. apply extracted_rows_elem in Hr.
  apply list_elem_of_fmap in Hr as (row & Hrow & _). eauto 10.
Qed.

End ExtractionFacts.

(** ** The aggregate row and the run *)

Section RunFacts.
Local Open Scope Z_scope.

Lemma compute_rank_perm rows :
  drop_rank <$> compute_rank rows ≡ₚ drop_rank <$> rows.
Proof.
  unfold compute_rank. rewrite rank_loop_drop_rank, sorted_rows_perm. done.
Qed.

Lemma compute_rank_sorted rows : StronglySorted precedes (compute_rank rows).
Proof.
  unfold compute_rank. apply sorted_drop_rank. rewrite rank_loop_drop_rank.
  apply drop_rank_sorted, sorted_rows_sorted.
Qed.

Lemma compute_rank_ranks rows i r :
  compute_rank rows !! i = Some r →
  rank r = Some (Z.of_nat (first_with (medal_key r) (compute_rank rows)) + 1).
Proof.
  unfold compute_rank. intros Hr.
  rewrite (first_with_fmap _ _ (sorted_rows rows)) by apply rank_loop_keys.
  apply (rank_loop_spec (sorted_rows rows) [] 1 0 None) with (i := i);
    [apply sorted_rows_sorted|done|done|exact Hr].
Qed.

(** A ranked row is a row of the input with another rank, and conversely. *)
Lemma compute_rank_elem rows r :
  r ∈ compute_rank rows → ∃ r0, r0 ∈ rows ∧ drop_rank r = drop_rank r0.
Proof.
  intros Hr.
  assert (H : drop_rank r ∈ drop_rank <$> compute_rank rows)
    by (apply list_elem_of_fmap; eauto).
  rewrite compute_rank_perm in H.
  apply list_elem_of_fmap in H as (r0 & E & H0). eauto.
Qed.

Lemma compute_rank_elem_inv rows r0 :
  r0 ∈ rows → ∃ r, r ∈ compute_rank rows ∧ drop_rank r = drop_rank r0.
Proof.
  intros Hr.
  assert (H : drop_rank r0 ∈ drop_rank <$> rows)
    by (apply list_elem_of_fmap; eauto).
  rewrite <- compute_rank_perm in H.
  apply list_elem_of_fmap in H as (r & E & H0). eauto.
Qed.

Lemma add_eu_row_elem rows eu_members r :
  r ∈ add_eu_row rows eu_members →
  (∃ g s b, r = eu_row g s b) ∨ (∃ r0 b, r0 ∈ rows ∧ r = set_is_eu b r0).
Proof.
  unfold add_eu_row. intros H. apply elem_of_app in H as [H|H].
  - apply list_elem_of_fmap in H as (r0 & -> & H). right. eauto.
  - apply list_elem_of_singleton in H. left. eauto.
Qed.



(** The run up to its last line: what [main] has done when it prints
    that the table was updated. *)
Lemma main_updated ud search_fuzzy e fs o fs' :
  main ud search_fuzzy e fs = (o, fs', UPDATED) →
  ∃ resp ioc rows m,
    fetched e = Ok resp ∧ ioc_codes e = Ok ioc
    ∧ parse_medal_table ud search_fuzzy (resp_tables resp)
        (load_ioc_codes ud ioc).2 (load_ioc_codes ud ioc).1 = Ok (rows, [])
    ∧ o = Returned 0
    ∧ fs' = write_outputs (now_second e)
              (add_eu_row rows (load_eu_members (eu_members_file e))) m [].
Proof.
  unfold main, UPDATED.
  destruct (fetched e) as [resp|]; [|done].
  assert (Hrefresh : ∀ m,
    refresh ud search_fuzzy e resp m fs = (o, fs', [u "Medal table updated."]) →
    ∃ resp0 ioc rows m0,
      Ok resp = Ok resp0 ∧ ioc_codes e = Ok ioc
      ∧ parse_medal_table ud search_fuzzy (resp_tables resp0)
          (load_ioc_codes ud ioc).2 (load_ioc_codes ud ioc).1 = Ok (rows, [])
      ∧ o = Returned 0
      ∧ fs' = write_outputs (now_second e)
                (add_eu_row rows (load_eu_members (eu_members_file e))) m0 []).
  { intros m. unfold refresh.
    destruct (ioc_codes e) as [ioc|]; [|done].
    destruct (load_ioc_codes ud ioc) as [m1 m2] eqn:Hl. simpl.
    destruct (parse_medal_table _ _ _ _ _) as [[rows unmapped]|] eqn:Hp; [|done].
    case_bool_decide as Hu; [done|]. subst unmapped.
    intros [= <- <-]. eexists resp, ioc, rows, _. rewrite Hl. simpl.
    repeat split; done. }
  destruct (force e); simpl; [apply Hrefresh|].
  destruct (header_matches _ _); [intros [= _ _ H]; vm_compute in H; done|].
  destruct (header_matches _ _); [intros [= _ _ H]; vm_compute in H; done|].
  apply Hrefresh.
Qed.

End RunFacts.

(** ** The claims on extraction, aggregation and the run *)

Section Claims.
Local Open Scope Z_scope.





End Claims.

Section Claims2.
Local Open Scope Z_scope.

Lemma drop_rank_fields r r0 :
  drop_rank r = drop_rank r0 →
  noc r = noc r0 ∧ iso2 r = iso2 r0 ∧ flag_url r = flag_url r0
  ∧ is_eu r = is_eu r0.
Proof.
  intros E.
  change (noc (drop_rank r) = noc (drop_rank r0)
          ∧ iso2 (drop_rank r) = iso2 (drop_rank r0)
          ∧ flag_url (drop_rank r) = flag_url (drop_rank r0)
          ∧ is_eu (drop_rank r) = is_eu (drop_rank r0)).
  rewrite E. done.
Qed.

(** The aggregate row is among the ranked rows, with a rank. *)
Lemma compute_rank_aggregate rows eu_members :
  ∃ agg n, agg ∈ compute_rank (add_eu_row rows eu_members)
    ∧ noc agg = u "EU27" ∧ is_eu agg = Some true ∧ rank agg = Some n ∧ 1 ≤ n.
Proof.
  destruct (compute_rank_elem_inv (add_eu_row rows eu_members)
              (eu_row (eu_sum gold (eu_nocs_of eu_members) rows)
                 (eu_sum silver (eu_nocs_of eu_members) rows)
                 (eu_sum bronze (eu_nocs_of eu_members) rows)))
    as (agg & Hagg & E).
  { unfold add_eu_row. apply elem_of_app. right. left. }
  apply drop_rank_fields in E as (En & _ & _ & Ee).
  pose proof Hagg as Hi. apply list_elem_of_lookup in Hi as [i Hi].
  apply compute_rank_ranks in Hi.
  eexists agg, _. repeat split; [exact Hagg|exact En|exact Ee|exact Hi|lia].
Qed.

(** C9. In every row of the tables a run writes, ordinary or aggregate,
    [flag_url] is there exactly when [iso2] is, and is then the flag
    template at the lower-cased code; the country search is taken to
    return no empty code. *)
Theorem flag_url_iff_iso2 (ud : unicode_data) (search_fuzzy : str → option str)
    (e : env) (fs : files) (o : outcome) (fs' : files) :
  (∀ name code, search_fuzzy name = Some code → code ≠ []) →
  lower ud (u "EU") = u "eu" →
  main ud search_fuzzy e fs = (o, fs', UPDATED) →
  ∃ rows,
    MEDALS_CSV fs' = Some rows
    ∧ p_rows <$> MEDALS_JSON fs' = Some rows
    ∧ (∃ agg, agg ∈ rows ∧ noc agg = u "EU27")
    ∧ ∀ r, r ∈ rows → flag_matches_iso2 ud r.
Proof.
  intros Hfz Heu Hmain.
  apply main_updated in Hmain
    as (resp & ioc & rows & m & _ & _ & Hparse & _ & ->).
  eexists. split; [reflexivity|]. split; [reflexivity|]. split.
  { destruct (compute_rank_aggregate rows
                (load_eu_members (eu_members_file e)))
      as (agg & n & Hagg & Hn & _). eauto. }
  intros r Hr. apply compute_rank_elem in Hr as (r0 & Hr0 & E).
  apply drop_rank_fields in E as (_ & Ei & Ef & _).
  unfold flag_matches_iso2. rewrite Ei, Ef.
  apply add_eu_row_elem in Hr0 as [(g & s & b & ->)|(r1 & b & Hr1 & ->)].
  - cbn [eu_row iso2 flag_url]. split; [done|].
    intros code Hcode. assert (code = u "EU") as -> by congruence.
    rewrite Heu. reflexivity.
  - cbn [set_is_eu iso2 flag_url].
    destruct (parse_medal_table_rows _ _ _ _ _ _ _ _ Hparse Hr1)
      as (cols & rk & nation & nc & row & Hx).
    apply extract_row_Extracted in Hx as (_ & _ & _ & _ & Hi & Hf & _).
    rewrite Hf. apply flag_url_of_matches.
    intros code Hc. rewrite Hi in Hc.
    exact (iso2_from_country_nonempty _ _ _ Hfz Hc).
Qed.



(** C7. When the fetched [ETag] is not empty and is the [last_etag] of the
    stored metadata, a run without the force flag prints that there are no
    changes, returns 0 and leaves every file as it was, and
    [etag_check.py] reports no change; with the force flag the run goes on
    as if nothing were stored to compare, and once the reference data and
    the table are read it writes the metadata file. *)
Theorem etag_match_short_circuits (ud : unicode_data)
    (search_fuzzy : str → option str) (e : env) (fs : files)
    (resp : response) (m : meta) (etag : str) :
  fetched e = Ok resp →
  resp_etag resp = Some etag →
  etag ≠ [] →
  META_JSON fs = Some m →
  last_etag m = Some etag →
  (force e = false →
     main ud search_fuzzy e fs = (Returned 0, fs, NO_CHANGES))
  ∧ etag_check_changed (META_JSON fs) (resp_etag resp) (resp_last_modified resp)
    = false
  ∧ (force e = true →
     main ud search_fuzzy e fs = refresh ud search_fuzzy e resp m fs
     ∧ main ud search_fuzzy e fs ≠ (Returned 0, fs, NO_CHANGES)
     ∧ ∀ ioc rows unmapped,
         ioc_codes e = Ok ioc →
         parse_medal_table ud search_fuzzy (resp_tables resp)
           (load_ioc_codes ud ioc).2 (load_ioc_codes ud ioc).1
           = Ok (rows, unmapped) →
         ∃ m', META_JSON (main ud search_fuzzy e fs).1.2 = Some m'
           ∧ last_etag m' = Some etag
           ∧ last_update_utc m' = Some (now_first e)).
Proof.
  intros Hfetch Hetag Hne Hmeta Hlast.
  assert (Hmatch : header_matches (resp_etag resp) (last_etag m) = true).
  { rewrite Hetag, Hlast. destruct etag; [done|]. simpl.
    apply bool_decide_eq_true_2. done. }
  split; [|split].
  - intros Hforce. unfold main. rewrite Hfetch, Hmeta, Hforce. simpl.
    rewrite Hmatch. done.
  - unfold etag_check_changed. rewrite Hmeta. simpl. rewrite Hmatch. done.
  - intros Hforce.
    assert (Hmain : main ud search_fuzzy e fs = refresh ud search_fuzzy e resp m fs).
    { unfold main. rewrite Hfetch, Hmeta, Hforce. done. }
    rewrite Hmain. split; [done|]. unfold refresh. split.
    + destruct (ioc_codes e) as [ioc|]; [|done].
      destruct (load_ioc_codes ud ioc) as [m1 m2].
      destruct (parse_medal_table _ _ _ _ _) as [[rows unmapped]|]; [|done].
      case_bool_decide; intros [= _ _ Hout]; vm_compute in Hout; done.
    + intros ioc rows unmapped Hioc Hparse. rewrite Hioc.
      destruct (load_ioc_codes ud ioc) as [m1 m2]. simpl in Hparse |- *.
      rewrite Hparse. case_bool_decide; simpl; eexists; (split; [reflexivity|]);
        simpl; rewrite Hetag; done.
Qed.

End Claims2.

(** ** The claim on normalize_text *)

(** C6 (as stated): normalising twice is not normalising once on a marker
    that a line feed splits. The first pass keeps it, since [.] stops at
    the line feed, and turns the line feed into a space; the second pass
    removes it. *)
Lemma normalize_text_not_idempotent :
  normalize_text (PStr (normalize_text (PStr (u "[a" ++ [LF] ++ u "b]"))))
  ≠ normalize_text (PStr (u "[a" ++ [LF] ++ u "b]")).
Proof. vm_compute. discriminate. Qed.

(** C6 (amended). [normalize_text] is a total function. On a value whose
    text has no line feed it is idempotent and leaves no bracketed marker.
    On every value the result has no non-breaking space and none of the
    glyphs †, ‡, *, its white space is single spaces, and it has no white
    space at either end; ["United States[1] †"] becomes
    ["United States"]. *)
Theorem normalize_text_idempotent (v : pyval) :
  has_line_feed (py_str v) = false →
  normalize_text (PStr (normalize_text v)) = normalize_text v
  ∧ has_marker (normalize_text v) = false
  ∧ (∀ w, forallb is_plain (normalize_text w) = true
          ∧ spaced false (normalize_text w) = true
          ∧ trimmed (normalize_text w) = true)
  ∧ normalize_text (PStr (u "United States[1]" ++ [NBSP; DAGGER]))
    = u "United States".
Proof.
  intros Hlf.
  pose proof (normalize_text_no_marker v Hlf) as Hm.
  split; [apply normalize_text_fixed, Hm|]. split; [exact Hm|].
  split; [|reflexivity].
  intros w. split; [apply normalize_text_plain|].
  split; [apply normalize_text_spaced|apply normalize_text_trimmed].
Qed.

Lemma normalize_text_idempotent_witness :
  normalize_text (PStr (normalize_text (PStr (u "Norway [a] [b]" ++ [NBSP; STAR]))))
  = normalize_text (PStr (u "Norway [a] [b]" ++ [NBSP; STAR])).
Proof.
  apply (normalize_text_idempotent (PStr (u "Norway [a] [b]" ++ [NBSP; STAR]))).
  reflexivity.
Defined.

(** ** Runs on the sample data *)




Lemma etag_match_short_circuits_witness :
  main Latin1.data Sample.search_fuzzy (Sample.env_of false Sample.table)
    Sample.seen_files
  = (Returned 0, Sample.seen_files, NO_CHANGES).
Proof.
  apply (etag_match_short_circuits Latin1.data Sample.search_fuzzy
           (Sample.env_of false Sample.table) Sample.seen_files
           (Response [Sample.table] (Some Sample.etag) None)
           Sample.seen Sample.etag);
    try reflexivity.
  vm_compute. discriminate.
Defined.

Lemma flag_url_iff_iso2_witness :
  ∃ rows,
    MEDALS_CSV
      (main Latin1.data Sample.search_fuzzy
         (Sample.env_of false Sample.table) Sample.no_files).1.2
    = Some rows
    ∧ ∀ r, r ∈ rows → flag_matches_iso2 Latin1.data r.
Proof.
  destruct (flag_url_iff_iso2 Latin1.data Sample.search_fuzzy
              (Sample.env_of false Sample.table) Sample.no_files
              (main Latin1.data Sample.search_fuzzy
                 (Sample.env_of false Sample.table) Sample.no_files).1.1
              (main Latin1.data Sample.search_fuzzy
                 (Sample.env_of false Sample.table) Sample.no_files).1.2)
    as (rows & Hc & _ & _ & Hall).
  - intros name code. unfold Sample.search_fuzzy.
    destruct (bool_decide (name = u "Norway")); [|discriminate].
    intros [= <-]. discriminate.
  - reflexivity.
  - vm_compute. reflexivity.
  - exists rows. split; assumption.
Defined.

(** ** More on normalize_text *)

Section NormalizeMore.
Local Open Scope N_scope.
Local Arguments N.eqb : simpl never.
Local Arguments N.leb : simpl never.

Lemma thin_length s t : thin s t → (length t ≤ length s)%nat.
Proof. induction 1; simpl; lia. Qed.

Lemma sub_brackets_shrinks s :
  has_marker s = true → (length (sub_brackets false s) < length s)%nat.
Proof.
  induction s as [|c r IH]; simpl; [done|].
  destruct ((c =? LBRACKET) && closes r) eqn:E; simpl.
  - intros _. pose proof (thin_length _ _ (sub_brackets_thin true r)). lia.
  - intros H. specialize (IH H). lia.
Qed.

Lemma rstrip_fixed s :
  (∀ c, last s = Some c → isspace c = false) → rstrip s = s.
Proof.
  induction s as [|a r IH]; [done|].
  intros H. simpl. destruct r as [|b r'].
  - simpl. rewrite (H a eq_refl). done.
  - rewrite IH by (intros c Hc; apply H; exact Hc). done.
Qed.

Lemma trimmed_ends s :
  trimmed s = true →
  (∀ c, head s = Some c → isspace c = false)
  ∧ (∀ c, last s = Some c → isspace c = false).
Proof.
  unfold trimmed.
  destruct (head s) as [a|] eqn:Ha.
  - destruct (last s) as [b|] eqn:Hb.
    + intros H. apply andb_true_iff in H as [H1 H2].
      apply negb_true_iff in H1, H2. split; intros c [= <-]; done.
    + apply last_None in Hb. subst s. done.
  - destruct s; [|done]. intros _. split; intros c; done.
Qed.

Lemma strip_fixed s : trimmed s = true → strip s = s.
Proof.
  intros H. apply trimmed_ends in H as [Hh Hl].
  unfold strip. rewrite (lstrip_fixed s Hh). apply rstrip_fixed, Hl.
Qed.

(** A text on which every step of [normalize_text] has nothing to do. *)
Lemma normalize_text_clean s :
  has_marker s = false → forallb is_plain s = true →
  spaced false s = true → trimmed s = true →
  normalize_text (PStr s) = s.
Proof.
  intros Hm Hp Hs Ht. rewrite normalize_text_unfold. cbn [py_str].
  rewrite (sub_brackets_fixed _ Hm), (replace_nbsp_fixed _ Hp),
    (remove_glyphs_fixed _ Hp), (spaced_fixed _ _ Hs).
  apply strip_fixed, Ht.
Qed.

(** X1. [normalize_text] never makes a text longer, and the texts it leaves as
    they are are those with no bracketed marker, no non-breaking space, no
    †, ‡ or *, only single spaces as white space, and no white space at
    either end. *)
Theorem normalize_text_fixed_points (s : str) :
  (length (normalize_text (PStr s)) ≤ length s)%nat
  ∧ (normalize_text (PStr s) = s
     ↔ has_marker s = false ∧ forallb is_plain s = true
       ∧ spaced false s = true ∧ trimmed s = true).
Proof.
  assert (Hlen : ∀ t, (length (normalize_text (PStr t)) ≤ length t)%nat).
  { intros t. apply (thin_length (py_str (PStr t))).
    apply normalize_text_thin. done. }
  split; [apply Hlen|]. split.
  - intros E. split; [|rewrite <- E; split; [apply normalize_text_plain|];
      split; [apply normalize_text_spaced|apply normalize_text_trimmed]].
    destruct (has_marker s) eqn:Hm; [|done]. exfalso.
    pose proof (sub_brackets_shrinks s Hm) as Hlt.
    assert (Hle : (length (normalize_text (PStr s))
                   ≤ length (sub_brackets false s))%nat).
    { rewrite normalize_text_unfold. cbn [py_str]. apply thin_length.
      unfold strip.
      eapply thin_trans; [|apply rstrip_thin].
      eapply thin_trans; [|apply lstrip_thin].
      eapply thin_trans; [|apply sub_spaces_thin].
      eapply thin_trans; [|apply remove_glyphs_thin].
      apply replace_nbsp_thin. }
    rewrite E in Hle. lia.
  - intros (Hm & Hp & Hs & Ht). apply normalize_text_clean; done.
Qed.

End NormalizeMore.

(** ** Integers through to_int *)

Section ToIntMore.
Local Open Scope N_scope.
Local Arguments N.eqb : simpl never.
Local Arguments N.leb : simpl never.

Lemma solid_clean s :
  forallb is_solid s = true →
  has_marker s = false ∧ forallb is_plain s = true
  ∧ (∀ b, spaced b s = true) ∧ trimmed s = true.
Proof.
  intros H.
  assert (Hall : ∀ c, c ∈ s →
            (c =? LBRACKET) = false ∧ isspace c = false ∧ is_glyph c = false).
  { intros c Hc. apply list_elem_of_In in Hc.
    pose proof (proj1 (forallb_forall _ _) H c Hc) as Hs. unfold is_solid in Hs.
    apply andb_true_iff in Hs as [Hs H3]. apply andb_true_iff in Hs as [H1 H2].
    apply negb_true_iff in H1, H2, H3. done. }
  clear H. repeat split.
  - induction s as [|c r IH]; simpl; [done|].
    destruct (Hall c) as (-> & _); [left|]. simpl.
    apply IH. intros c' Hc'. apply Hall. by right.
  - induction s as [|c r IH]; simpl; [done|].
    destruct (Hall c) as (_ & Hsp & Hg); [left|].
    rewrite IH by (intros c' Hc'; apply Hall; by right).
    unfold is_plain. rewrite Hg.
    destruct (N.eqb_spec c NBSP) as [->|]; [done|done].
  - intros b. revert b. induction s as [|c r IH]; intros b; simpl; [done|].
    destruct (Hall c) as (_ & -> & _); [left|].
    apply IH. intros c' Hc'. apply Hall. by right.
  - unfold trimmed.
    destruct (head s) as [a|] eqn:Ha; [|done].
    destruct (last s) as [b|] eqn:Hb; [|done].
    destruct (Hall a) as (_ & -> & _); [eapply head_Some_elem_of, Ha|].
    destruct (Hall b) as (_ & -> & _); [eapply last_Some_elem_of, Hb|]. done.
Qed.

Lemma normalize_text_solid s :
  forallb is_solid s = true → normalize_text (PStr s) = s.
Proof.
  intros H. apply solid_clean in H as (Hm & Hp & Hs & Ht).
  apply normalize_text_clean; auto.
Qed.

Lemma uint_str_digits d : forallb is_digit (uint_str d) = true.
Proof. induction d; simpl; auto. Qed.

Lemma filter_digits_fixed s :
  forallb is_digit s = true → List.filter is_digit s = s.
Proof.
  induction s as [|c r IH]; simpl; [done|].
  intros H. apply andb_true_iff in H as [-> Hr]. rewrite (IH Hr). done.
Qed.

Lemma digit_solid c : is_digit c = true → is_solid c = true.
Proof.
  unfold is_digit. intros H. apply andb_true_iff in H as [H1 H2].
  apply N.leb_le in H1, H2.
  unfold is_solid, isspace, is_glyph, LBRACKET, DAGGER, DDAGGER, STAR.
  repeat match goal with
  | |- context [(?a =? ?b)] =>
      replace (a =? b) with false by (symmetry; apply N.eqb_neq; lia)
  end.
  replace (c <=? 13) with false by (symmetry; apply N.leb_gt; lia).
  replace (c <=? 32) with false by (symmetry; apply N.leb_gt; lia).
  replace (8192 <=? c) with false by (symmetry; apply N.leb_gt; lia).
  rewrite !andb_false_r. done.
Qed.

Lemma digits_solid s : forallb is_digit s = true → forallb is_solid s = true.
Proof.
  induction s as [|c r IH]; simpl; [done|].
  intros H. apply andb_true_iff in H as [Hc Hr].
  rewrite (digit_solid _ Hc), (IH Hr). done.
Qed.

Lemma int_of_digits_acc d (acc : positive) :
  foldl (λ a c, a * 10 + Z.of_N (c - 48))%Z (Z.pos acc) (uint_str d)
  = Z.pos (Pos.of_uint_acc d acc).
Proof.
  revert acc. induction d; intros acc; simpl; [done|..];
    rewrite <- IHd; f_equal; lia.
Qed.

Lemma int_of_digits_uint d :
  int_of_digits (uint_str d) = Z.of_N (Pos.of_uint d).
Proof.
  unfold int_of_digits. induction d; simpl; [done|exact IHd|..];
    apply (int_of_digits_acc d).
Qed.

Lemma to_uint_nonempty p : uint_str (Pos.to_uint p) ≠ [].
Proof.
  intros E. pose proof (DecimalPos.Unsigned.of_to p) as H.
  destruct (Pos.to_uint p); simpl in *; done.
Qed.

(** X2. An integer cell parses to its absolute value: the minus sign is one of
    the characters [to_int] drops. *)
Theorem to_int_of_integer (z : Z) : to_int (PInt z) = Z.abs z.
Proof.
  unfold to_int.
  assert (Hnorm : ∀ p neg,
    List.filter is_digit
      (normalize_text
         (PStr ((if neg : bool then [45] else []) ++ uint_str (Pos.to_uint p))))
    = uint_str (Pos.to_uint p)).
  { intros p neg. rewrite normalize_text_solid.
    - destruct neg; simpl; apply filter_digits_fixed, uint_str_digits.
    - rewrite forallb_app, (digits_solid _ (uint_str_digits _)), andb_true_r.
      destruct neg; done. }
  destruct z as [|p|p].
  - reflexivity.
  - change (normalize_text (PInt (Z.pos p)))
      with (normalize_text (PStr ([] ++ uint_str (Pos.to_uint p)))).
    rewrite (Hnorm p false).
    replace (truthy (uint_str (Pos.to_uint p))) with true
      by (pose proof (to_uint_nonempty p);
          destruct (uint_str (Pos.to_uint p)); done).
    rewrite int_of_digits_uint, DecimalPos.Unsigned.of_to. done.
  - change (normalize_text (PInt (Z.neg p)))
      with (normalize_text (PStr ([45] ++ uint_str (Pos.to_uint p)))).
    rewrite (Hnorm p true).
    replace (truthy (uint_str (Pos.to_uint p))) with true
      by (pose proof (to_uint_nonempty p);
          destruct (uint_str (Pos.to_uint p)); done).
    rewrite int_of_digits_uint, DecimalPos.Unsigned.of_to. done.
Qed.

End ToIntMore.

(** ** More on name_key and flatten_columns *)

Section KeysMore.
Local Open Scope N_scope.
Local Arguments N.eqb : simpl never.
Local Arguments N.leb : simpl never.

Lemma lower_ascii_not_upper c : is_upper (lower_ascii c) = false.
Proof.
  unfold lower_ascii, is_upper.
  destruct ((65 <=? c) && (c <=? 90)) eqn:E; [|exact E].
  apply andb_true_iff in E as [H1 H2]. apply N.leb_le in H1, H2.
  replace (c + 32 <=? 90) with false by (symmetry; apply N.leb_gt; lia).
  apply andb_false_r.
Qed.

Lemma folded_key_chars t :
  forallb (λ c, is_key_char c && negb (is_upper c))
    (List.filter is_key_char (lower_ascii <$> t)) = true.
Proof.
  induction t as [|c t IH]; [done|].
  rewrite fmap_cons. simpl.
  destruct (is_key_char (lower_ascii c)) eqn:E; [|exact IH].
  simpl. rewrite E, lower_ascii_not_upper, IH. done.
Qed.

(** X3. A key has only lower-case letters, digits and spaces, and no space at
    either end. *)
Theorem name_key_canonical (ud : unicode_data) (v : pyval) :
  ascii_exact ud →
  forallb (λ c, is_key_char c && negb (is_upper c)) (name_key ud v) = true
  ∧ trimmed (name_key ud v) = true.
Proof.
  intros Hud. rewrite name_key_fold by done. split; [|apply trimmed_strip].
  unfold strip, fold_marks.
  apply forallb_rstrip, forallb_lstrip, folded_key_chars.
Qed.

Lemma name_key_canonical_witness :
  forallb (λ c, is_key_char c && negb (is_upper c))
    (name_key Latin1.data (PStr (u " C" ++ [244] ++ u "te d'Ivoire [b] ")))
  = true.
Proof.
  apply (name_key_canonical Latin1.data
           (PStr (u " C" ++ [244] ++ u "te d'Ivoire [b] ")) latin1_exact).
Defined.

Lemma name_overrides_settled name v :
  NAME_OVERRIDES !! name = Some v →
  normalize_text (PStr v) = v ∧ default v (NAME_OVERRIDES !! v) = v.
Proof.
  revert name v.
  change (map_Forall
            (λ _ v, normalize_text (PStr v) = v
                    ∧ default v (NAME_OVERRIDES !! v) = v) NAME_OVERRIDES).
  unfold NAME_OVERRIDES at 2.
  repeat (rewrite list_to_map_cons; apply map_Forall_insert_2;
          [split; vm_compute; reflexivity|]).
  apply map_Forall_empty.
Qed.

(** X4. The loop of [parse_medal_table] substitutes the override table in the
    label and [name_key] substitutes it again: on a normalised label the
    key is the same with and without the first substitution. *)
Theorem name_key_after_override (ud : unicode_data) (raw : str) :
  normalize_text (PStr raw) = raw →
  name_key ud (PStr (default raw (NAME_OVERRIDES !! raw)))
  = name_key ud (PStr raw).
Proof.
  intros Hraw. destruct (NAME_OVERRIDES !! raw) as [v|] eqn:E; [|done].
  destruct (name_overrides_settled _ _ E) as [Hv Hvv].
  change (default raw (Some v)) with v.
  unfold name_key. rewrite Hv, Hvv, Hraw, E. done.
Qed.

Lemma name_key_after_override_witness :
  name_key Latin1.data (PStr (default TURKIYE (NAME_OVERRIDES !! TURKIYE)))
  = name_key Latin1.data (PStr TURKIYE).
Proof.
  apply (name_key_after_override Latin1.data TURKIYE). reflexivity.
Defined.

Lemma normalize_text_twice v :
  has_line_feed (py_str v) = false →
  normalize_text (PStr (normalize_text v)) = normalize_text v.
Proof. intros H. apply normalize_text_fixed, normalize_text_no_marker, H. Qed.

(** X5. [parse_medal_table] flattens the labels of the table [pick_medal_table]
    has flattened already. When no label has a line feed the second pass
    changes nothing; in every case a pass keeps the rows and the number of
    columns. *)
Theorem flatten_columns_twice (t : html_table) :
  labels_one_line (ht_columns t) = true →
  flatten_columns_again (flatten_columns t) = flatten_columns t
  ∧ df_rows (flatten_columns t) = ht_rows t
  ∧ length (df_columns (flatten_columns t))
    = match ht_columns t with
      | Index labels => length labels
      | MultiIndex labels => length labels
      end.
Proof.
  intros H. unfold flatten_columns_again, flatten_columns.
  destruct (ht_columns t) as [labels|labels]; simpl in *.
  - split; [|by rewrite length_fmap]. f_equal.
    induction labels as [|v labels IH]; [done|].
    simpl in H. apply andb_true_iff in H as [Hv Hl].
    apply negb_true_iff in Hv.
    rewrite !fmap_cons. f_equal; [exact (normalize_text_twice v Hv)|exact (IH Hl)].
  - split; [|by rewrite length_fmap]. f_equal.
    induction labels as [|col labels IH]; [done|].
    simpl in H. apply andb_true_iff in H as [Hc Hl].
    rewrite !fmap_cons. f_equal; [|exact (IH Hl)].
    unfold last_or_empty.
    destruct (last (List.filter truthy (normalize_text <$> col)))
      as [s|] eqn:E; [|reflexivity].
    simpl. apply last_Some_elem_of, list_elem_of_In, filter_In in E as [E _].
    apply list_elem_of_In, list_elem_of_fmap in E as (v & -> & Hv).
    apply normalize_text_twice.
    apply list_elem_of_In in Hv.
    pose proof (proj1 (forallb_forall _ _) Hc v Hv) as Hlf.
    apply negb_true_iff in Hlf. exact Hlf.
Qed.

Lemma flatten_columns_twice_witness :
  flatten_columns_again (flatten_columns Sample.table)
  = flatten_columns Sample.table.
Proof.
  apply (flatten_columns_twice Sample.table). reflexivity.
Defined.

End KeysMore.

(** ** More on compute_rank *)

Section RankingMore.
Local Open Scope Z_scope.

Lemma key_compare_refl k : key_compare k k = Eq.
Proof.
  destruct k as [[[[a b] c] d] s]. simpl.
  rewrite !Z.compare_refl. apply str_compare_refl.
Qed.

Lemma key_ltb_strict a b : key_ltb a b = true → ¬ precedes b a.
Proof.
  unfold key_ltb, key_compare, sort_key, precedes, str_le.
  rewrite (str_compare_antisym (country a) (country b)).
  destruct (Z.compare_spec (- gold a) (- gold b)); try done; [|lia].
  destruct (Z.compare_spec (- silver a) (- silver b)); try done; [|lia].
  destruct (Z.compare_spec (- bronze a) (- bronze b)); try done; [|lia].
  destruct (Z.compare_spec (- total a) (- total b)); try done; [|lia].
  destruct (str_compare (country a) (country b)); try done.
  intros _ Hp. simpl in Hp.
  destruct Hp as [?|[? [?|[? [?|[? [?|[? ?]]]]]]]]; try lia. done.
Qed.

Lemma key_ltb_other_key a b : key_ltb a b = true → sort_key a ≠ sort_key b.
Proof.
  unfold key_ltb. intros H E. rewrite E, key_compare_refl in H. done.
Qed.

Lemma sorted_rows_fixed l : StronglySorted precedes l → sorted_rows l = l.
Proof.
  induction 1 as [|x l Hl IH Hx]; simpl; [done|].
  rewrite IH. destruct l as [|y r]; simpl; [done|].
  destruct (key_ltb y x) eqn:E; [|done].
  apply key_ltb_strict in E. destruct E.
  apply (proj1 (Forall_forall _ _) Hx). left.
Qed.

Lemma rank_loop_again idx rk prev idx' rk' prev' l :
  rank_loop idx rk prev (rank_loop idx' rk' prev' l) = rank_loop idx rk prev l.
Proof.
  revert idx rk prev idx' rk' prev'.
  induction l as [|r l IH]; intros; [done|].
  cbn [rank_loop].
  destruct (bool_decide (Some (medal_key r) ≠ prev')); cbn [rank_loop];
    change (medal_key (set_rank _ r)) with (medal_key r);
    destruct (bool_decide (Some (medal_key r) ≠ prev));
    rewrite IH; done.
Qed.

(** X6. Ranking a ranked table gives the same table. *)
Theorem compute_rank_idempotent (rows : list medal_row) :
  compute_rank (compute_rank rows) = compute_rank rows.
Proof.
  unfold compute_rank at 1.
  rewrite (sorted_rows_fixed _ (compute_rank_sorted rows)).
  unfold compute_rank. apply rank_loop_again.
Qed.

Lemma insert_row_filter k x l :
  List.filter (λ r, bool_decide (sort_key r = k)) (insert_row x l)
  = List.filter (λ r, bool_decide (sort_key r = k)) (x :: l).
Proof.
  induction l as [|y r IH]; [done|].
  cbn [insert_row]. destruct (key_ltb y x) eqn:E; [|done].
  apply key_ltb_other_key in E.
  cbn [List.filter]. rewrite IH. cbn [List.filter].
  destruct (bool_decide_reflect (sort_key x = k)) as [Hx|Hx];
    destruct (bool_decide_reflect (sort_key y = k)) as [Hy|Hy];
    try done. congruence.
Qed.

Lemma sorted_rows_filter k l :
  List.filter (λ r, bool_decide (sort_key r = k)) (sorted_rows l)
  = List.filter (λ r, bool_decide (sort_key r = k)) l.
Proof.
  induction l as [|x l IH]; [done|].
  cbn [sorted_rows foldr]. rewrite insert_row_filter.
  cbn [List.filter]. fold (sorted_rows l). rewrite IH. done.
Qed.

Lemma rank_loop_filter k idx rk prev l :
  drop_rank <$> List.filter (λ r, bool_decide (sort_key r = k))
                  (rank_loop idx rk prev l)
  = drop_rank <$> List.filter (λ r, bool_decide (sort_key r = k)) l.
Proof.
  revert idx rk prev. induction l as [|r l IH]; intros idx rk prev; [done|].
  cbn [rank_loop].
  destruct (bool_decide (Some (medal_key r) ≠ prev)); cbn [List.filter];
    change (sort_key (set_rank _ r)) with (sort_key r);
    destruct (bool_decide (sort_key r = k));
    rewrite ?fmap_cons, IH; done.
Qed.

(** X7. [sorted] is stable: the rows of one sort key (medal tuple and country
    name) come out in the order they went in. *)
Theorem compute_rank_stable (rows : list medal_row)
    (k : Z * Z * Z * Z * str) :
  drop_rank <$> List.filter (λ r, bool_decide (sort_key r = k))
                  (compute_rank rows)
  = drop_rank <$> List.filter (λ r, bool_decide (sort_key r = k)) rows.
Proof.
  unfold compute_rank. rewrite rank_loop_filter, sorted_rows_filter. done.
Qed.

Lemma first_with_le l i r :
  l !! i = Some r → (first_with (medal_key r) l ≤ i)%nat.
Proof.
  revert i. induction l as [|x l IH]; intros [|i]; simpl; try done.
  - intros [= ->]. rewrite bool_decide_eq_true_2 by done. done.
  - intros H. case_bool_decide; [lia|]. specialize (IH _ H). lia.
Qed.





End RankingMore.

(** ** More on parse_medal_table *)

Section ParseMore.
Local Open Scope Z_scope.








Section Loop.
Context (ud : unicode_data) (search_fuzzy : str → option str).
Context (cols : list str) (rank_col nation_col noc_col : option str).
Context (name_to_noc noc_to_name : gmap str str).




End Loop.






End ParseMore.

(** ** Columns and the table picked *)

Section ColumnsMore.
Local Open Scope N_scope.

Lemma find_first {A} (p : A → bool) l x :
  List.find p l = Some x →
  ∃ pre post, l = pre ++ x :: post ∧ p x = true ∧ ∀ y, y ∈ pre → p y = false.
Proof.
  induction l as [|a l IH]; simpl; [done|].
  destruct (p a) eqn:E.
  - intros [= <-]. exists [], l. split; [done|]. split; [done|].
    intros y Hy. by apply elem_of_nil in Hy.
  - intros H. destruct (IH H) as (pre & post & -> & Hx & Hpre).
    exists (a :: pre), post. split; [done|]. split; [done|].
    intros y Hy. apply elem_of_cons in Hy as [->|Hy]; auto.
Qed.

Lemma find_nothing {A} (p : A → bool) l :
  List.find p l = None ↔ ∀ y, y ∈ l → p y = false.
Proof.
  induction l as [|a l IH]; simpl.
  - split; [|done]. intros _ y Hy. by apply elem_of_nil in Hy.
  - destruct (p a) eqn:E.
    + split; [done|]. intros H. rewrite (H a) in E; [done|left].
    + rewrite IH. split.
      * intros H y Hy. apply elem_of_cons in Hy as [->|Hy]; auto.
      * intros H y Hy. apply H. by right.
Qed.

Lemma omap_first {A B} (g : A → option B) l y rest :
  omap g l = y :: rest →
  ∃ pre x post, l = pre ++ x :: post ∧ g x = Some y
    ∧ ∀ x', x' ∈ pre → g x' = None.
Proof.
  induction l as [|a l IH]; [done|].
  change (a :: l) with ([a] ++ l). rewrite omap_app.
  destruct (g a) as [b|] eqn:E.
  - replace (omap g [a]) with [b] by (simpl; rewrite E; done).
    intros [= <- _]. exists [], a, l. split; [done|]. split; [done|].
    intros x' Hx'. by apply elem_of_nil in Hx'.
  - replace (omap g [a]) with (@nil B) by (simpl; rewrite E; done).
    intros H. destruct (IH H) as (pre & x & post & -> & Hx & Hpre).
    exists (a :: pre), x, post. split; [done|]. split; [done|].
    intros x' Hx'. apply elem_of_cons in Hx' as [->|Hx']; auto.
Qed.

Lemma omap_nothing {A B} (g : A → option B) l :
  omap g l = [] ↔ ∀ x, x ∈ l → g x = None.
Proof.
  induction l as [|a l IH].
  - split; [|done]. intros _ x Hx. by apply elem_of_nil in Hx.
  - change (a :: l) with ([a] ++ l). rewrite omap_app.
    destruct (g a) as [b|] eqn:E.
    + replace (omap g [a]) with [b] by (simpl; rewrite E; done).
      split; [done|]. intros H. rewrite (H a) in E; [done|left].
    + replace (omap g [a]) with (@nil B) by (simpl; rewrite E; done).
      simpl. rewrite IH. split.
      * intros H x Hx. apply elem_of_cons in Hx as [->|Hx]; auto.
      * intros H x Hx. apply H. by right.
Qed.

Lemma zip_fmap_elem {A B} (f : A → B) l k c :
  (k, c) ∈ zip (f <$> l) l ↔ c ∈ l ∧ k = f c.
Proof.
  induction l as [|a l IH]; simpl.
  - rewrite !elem_of_nil. tauto.
  - rewrite !elem_of_cons, IH. split.
    + intros [[= -> ->]|[? ?]]; auto.
    + intros [[->|?] ->]; auto.
Qed.

(** The dictionary [col_map] of [find_col] and of [pick_medal_table]'s
    caller: every lower-cased name of a column has an entry, which is a
    column of that name. *)
Lemma col_map_lookup (ud : unicode_data) (cols : list str) name :
  name ∈ label_name ud <$> cols →
  ∃ c, (list_to_map (reverse (zip (label_name ud <$> cols) cols))
          : gmap str str) !! name = Some c
       ∧ c ∈ cols ∧ label_name ud c = name.
Proof.
  intros Hin.
  destruct ((list_to_map (reverse (zip (label_name ud <$> cols) cols))
               : gmap str str) !! name) as [c|] eqn:E.
  - exists c. split; [done|].
    apply elem_of_list_to_map_2, elem_of_reverse, zip_fmap_elem in E
      as [Hc ->]. done.
  - exfalso. apply not_elem_of_list_to_map in E. apply E.
    apply list_elem_of_fmap in Hin as (c & -> & Hc).
    apply list_elem_of_fmap. exists (label_name ud c, c). split; [done|].
    apply elem_of_reverse, zip_fmap_elem. done.
Qed.

Lemma find_col_spec (ud : unicode_data) (cols candidates : list str) :
  (find_col ud cols candidates = None ↔
     ∀ cand c, cand ∈ candidates → c ∈ cols →
       contains (label_name ud c) cand = false)
  ∧ (∀ c, find_col ud cols candidates = Some c →
       c ∈ cols
       ∧ ∃ pre cand post,
           candidates = pre ++ cand :: post
           ∧ contains (label_name ud c) cand = true
           ∧ ∀ cand' c', cand' ∈ pre → c' ∈ cols →
               contains (label_name ud c') cand' = false).
Proof.
  unfold find_col.
  set (g := λ cand, List.find (λ col, contains col cand) (label_name ud <$> cols)).
  assert (Hnone : ∀ cand, g cand = None ↔
            ∀ c, c ∈ cols → contains (label_name ud c) cand = false).
  { intros cand. unfold g. rewrite find_nothing. split.
    - intros H c Hc. apply H, list_elem_of_fmap. eauto.
    - intros H y Hy. apply list_elem_of_fmap in Hy as (c & -> & Hc). auto. }
  destruct (omap g candidates) as [|name rest] eqn:E.
  - split; [|done]. split; [|done]. intros _ cand c Hcand Hc.
    apply (proj1 (omap_nothing g candidates) E) in Hcand.
    apply (proj1 (Hnone cand) Hcand), Hc.
  - apply omap_first in E as (pre & cand & post & -> & Hg & Hpre).
    apply find_first in Hg as (l1 & l2 & Hl & Hcont & _).
    assert (Hin : name ∈ label_name ud <$> cols).
    { rewrite Hl. apply elem_of_app. right. left. }
    destruct (col_map_lookup ud cols name Hin) as (c & Hc & Hcin & Hname).
    rewrite Hc. split.
    + split; [done|]. intros H. rewrite <- Hname in Hcont.
      rewrite (H cand c) in Hcont; [done| |done].
      apply elem_of_app. right. left.
    + intros c' [= <-]. split; [done|].
      exists pre, cand, post. split; [done|]. rewrite Hname. split; [done|].
      intros cand' c' Hc' Hcols. apply (proj1 (Hnone cand')); auto.
Qed.

(** X12. [find_col] returns a column exactly when the lower-cased name of some
    column contains some candidate; the column it returns has a name that
    contains a candidate before which no candidate is in any name. *)
Theorem find_col_finds (ud : unicode_data) (cols candidates : list str) :
  (find_col ud cols candidates = None ↔
     ∀ cand c, cand ∈ candidates → c ∈ cols →
       contains (label_name ud c) cand = false)
  ∧ (∀ c, find_col ud cols candidates = Some c →
       c ∈ cols
       ∧ ∃ pre cand post,
           candidates = pre ++ cand :: post
           ∧ contains (label_name ud c) cand = true
           ∧ ∀ cand' c', cand' ∈ pre → c' ∈ cols →
               contains (label_name ud c') cand' = false).
Proof. apply find_col_spec. Qed.

Lemma startswith_refl s : startswith s s = true.
Proof. induction s as [|c s IH]; simpl; [done|]. rewrite N.eqb_refl. exact IH. Qed.

Lemma contains_refl s : contains s s = true.
Proof. destruct s; simpl; [done|]. rewrite N.eqb_refl, startswith_refl. done. Qed.

Lemma medal_headers_test (ud : unicode_data) (df : dataframe) :
  forallb (λ name, bool_decide (name ∈ label_name ud <$> df_columns df))
    [u "gold"; u "silver"; u "bronze"; u "total"] = true
  ↔ has_medal_headers ud df.
Proof.
  unfold has_medal_headers. rewrite forallb_forall. split.
  - intros H name Hn. apply list_elem_of_In, H in Hn.
    apply bool_decide_eq_true in Hn. exact Hn.
  - intros H name Hn. apply bool_decide_eq_true, H, list_elem_of_In, Hn.
Qed.

(** X13. [pick_medal_table] raises on a page without tables, and on a page
    where no table has the four medal headers; otherwise it returns the
    first table that has them, flattened, and [find_col] finds a column
    for each of the four headers in it. *)
Theorem pick_medal_table_first (ud : unicode_data) (tables : list html_table) :
  (tables = [] →
     pick_medal_table ud tables = Raise (ValueError (u "No tables found")))
  ∧ (tables ≠ [] →
     (∀ t, t ∈ tables → ¬ has_medal_headers ud (flatten_columns t)) →
     pick_medal_table ud tables
     = Raise (RuntimeError
                (u "Could not find medal table with required columns.")))
  ∧ (∀ df, pick_medal_table ud tables = Ok df →
       ∃ pre t post,
         tables = pre ++ t :: post ∧ df = flatten_columns t
         ∧ has_medal_headers ud df
         ∧ (∀ t', t' ∈ pre → ¬ has_medal_headers ud (flatten_columns t'))
         ∧ ∀ name, name ∈ [u "gold"; u "silver"; u "bronze"; u "total"] →
             is_Some (find_col ud (df_columns df) [name])).
Proof.
  split; [intros ->; reflexivity|]. split.
  - intros Hne Hall. unfold pick_medal_table.
    destruct tables as [|t0 ts]; [done|].
    destruct (List.find _ _) as [df|] eqn:E; [|done].
    apply find_first in E as (pre & post & Hl & Hq & _).
    assert (Hin : df ∈ flatten_columns <$> t0 :: ts).
    { rewrite Hl. apply elem_of_app. right. left. }
    apply list_elem_of_fmap in Hin as (t & -> & Ht).
    apply medal_headers_test in Hq. destruct (Hall t Ht Hq).
  - intros df. unfold pick_medal_table.
    destruct tables as [|t0 ts]; [done|].
    destruct (List.find _ _) as [df'|] eqn:E; [|done].
    intros [= ->].
    apply find_first in E as (pre' & post' & Hl & Hq & Hpre).
    apply fmap_app_inv in Hl as (pre & rest & -> & Hrest & ->).
    symmetry in Hrest.
    apply fmap_cons_inv in Hrest as (t & post & -> & -> & ->).
    apply medal_headers_test in Hq.
    exists pre, t, post. split; [done|]. split; [done|]. split; [done|]. split.
    + intros t' Ht' Hh. apply medal_headers_test in Hh.
      rewrite Hpre in Hh; [done|]. apply list_elem_of_fmap. eauto.
    + intros name Hname.
      destruct (find_col ud (df_columns (flatten_columns t)) [name])
        as [c|] eqn:Ef; [eauto|]. exfalso.
      pose proof (proj1 (proj1 (find_col_spec ud _ [name])) Ef) as Hno.
      destruct (proj1 (list_elem_of_fmap _ _ _) (Hq name Hname))
        as (c & Hc & Hcin).
      specialize (Hno name c (list_elem_of_here _ _) Hcin).
      rewrite <- Hc, contains_refl in Hno. done.
Qed.

End ColumnsMore.

(** ** The registry and resolution through it *)

Section RegistryMore.

Lemma truthy_nonempty s : truthy s = true ↔ s ≠ [].
Proof. destruct s; simpl; split; done. Qed.

Lemma load_ioc_codes_snoc ud rows row :
  load_ioc_codes ud (rows ++ [row])
  = (let '(noc_to_name, name_to_noc) := load_ioc_codes ud rows in
     let noc := normalize_text (csv_noc row) in
     let name := normalize_text (csv_country_name row) in
     if negb (truthy noc) || negb (truthy name)
     then (noc_to_name, name_to_noc)
     else (<[noc := name]> noc_to_name,
           <[name_key ud (PStr name) := noc]> name_to_noc)).
Proof.
  unfold load_ioc_codes. rewrite foldl_app. simpl.
  destruct (foldl _ _ rows) as [m1 m2]. done.
Qed.

(** What the two dictionaries of [load_ioc_codes] hold. *)
Lemma load_ioc_codes_spec ud rows :
  (∀ key noc, (load_ioc_codes ud rows).2 !! key = Some noc →
     noc ≠ [] ∧ is_Some ((load_ioc_codes ud rows).1 !! noc))
  ∧ (∀ noc name, (load_ioc_codes ud rows).1 !! noc = Some name →
       noc ≠ [] ∧ name ≠ []
       ∧ is_Some ((load_ioc_codes ud rows).2 !! name_key ud (PStr name))
       ∧ ∃ row, row ∈ rows ∧ normalize_text (csv_noc row) = noc
           ∧ normalize_text (csv_country_name row) = name)
  ∧ (∀ row, row ∈ rows → ioc_row_usable row →
       is_Some ((load_ioc_codes ud rows).1 !! normalize_text (csv_noc row))
       ∧ is_Some ((load_ioc_codes ud rows).2
                    !! name_key ud (PStr (normalize_text (csv_country_name row))))).
Proof.
  induction rows as [|row rows (IHa & IHb & IHc)] using rev_ind.
  { unfold load_ioc_codes. simpl.
    split; [|split]; [intros ? ? H|intros ? ? H|intros ? H];
      [by rewrite lookup_empty in H..|by apply elem_of_nil in H]. }
  rewrite load_ioc_codes_snoc.
  destruct (load_ioc_codes ud rows) as [m1 m2]. simpl in *.
  set (noc := normalize_text (csv_noc row)).
  set (name := normalize_text (csv_country_name row)).
  destruct (truthy noc) eqn:Hn; simpl.
  2:{ split; [exact IHa|]. split.
      - intros n nm H. destruct (IHb n nm H) as (? & ? & ? & r & ? & ?).
        repeat split; try done. exists r. split; [|done].
        apply elem_of_app. by left.
      - intros r Hr Hu. apply elem_of_app in Hr as [Hr|Hr].
        + apply IHc; done.
        + apply list_elem_of_singleton in Hr as ->. destruct Hu as [Hu _].
          apply truthy_nonempty in Hu. fold noc in Hu. congruence. }
  destruct (truthy name) eqn:Hm; simpl.
  2:{ split; [exact IHa|]. split.
      - intros n nm H. destruct (IHb n nm H) as (? & ? & ? & r & ? & ?).
        repeat split; try done. exists r. split; [|done].
        apply elem_of_app. by left.
      - intros r Hr Hu. apply elem_of_app in Hr as [Hr|Hr].
        + apply IHc; done.
        + apply list_elem_of_singleton in Hr as ->. destruct Hu as [_ Hu].
          apply truthy_nonempty in Hu. fold name in Hu. congruence. }
  apply truthy_nonempty in Hn, Hm.
  split; [|split].
  - intros key n H. destruct (decide (name_key ud (PStr name) = key)) as [<-|Hk].
    + rewrite lookup_insert_eq in H. injection H as <-.
      split; [done|]. rewrite lookup_insert_eq. eauto.
    + rewrite lookup_insert_ne in H by done.
      destruct (IHa key n H) as [? Hs]. split; [done|].
      rewrite lookup_insert_is_Some. destruct (decide (noc = n)); auto.
  - intros n nm H. destruct (decide (noc = n)) as [<-|Hk].
    + rewrite lookup_insert_eq in H. injection H as <-.
      split; [done|]. split; [done|]. split.
      * rewrite lookup_insert_eq. eauto.
      * exists row. split; [|done]. apply elem_of_app. right. left.
    + rewrite lookup_insert_ne in H by done.
      destruct (IHb n nm H) as (? & ? & Hs & r & ? & ?).
      split; [done|]. split; [done|]. split.
      * rewrite lookup_insert_is_Some.
        destruct (decide (name_key ud (PStr name) = name_key ud (PStr nm))); auto.
      * exists r. split; [|done]. apply elem_of_app. by left.
  - intros r Hr Hu. rewrite !lookup_insert_is_Some.
    apply elem_of_app in Hr as [Hr|Hr].
    + destruct (IHc r Hr Hu) as [H1 H2]. split.
      * destruct (decide (noc = normalize_text (csv_noc r))); auto.
      * destruct (decide (name_key ud (PStr name)
                          = name_key ud (PStr (normalize_text (csv_country_name r)))));
          auto.
    + apply list_elem_of_singleton in Hr as ->. split; left; done.
Qed.

(** X14. [load_ioc_codes] keeps its two dictionaries consistent: every NOC that
    a key leads to is not empty and has a name; every NOC with a name comes
    from a row of the file with that code and that name, both not empty,
    and the key of the name has an entry; every row with a code and a name
    has its code and the key of its name in the dictionaries; and a row
    with a code and a name overrides the rows before it. *)
Theorem load_ioc_codes_consistent (ud : unicode_data) (rows : list ioc_row) :
  (∀ key noc, (load_ioc_codes ud rows).2 !! key = Some noc →
     noc ≠ [] ∧ is_Some ((load_ioc_codes ud rows).1 !! noc))
  ∧ (∀ noc name, (load_ioc_codes ud rows).1 !! noc = Some name →
       noc ≠ [] ∧ name ≠ []
       ∧ is_Some ((load_ioc_codes ud rows).2 !! name_key ud (PStr name))
       ∧ ∃ row, row ∈ rows ∧ normalize_text (csv_noc row) = noc
           ∧ normalize_text (csv_country_name row) = name)
  ∧ (∀ row, row ∈ rows → ioc_row_usable row →
       is_Some ((load_ioc_codes ud rows).1 !! normalize_text (csv_noc row))
       ∧ is_Some ((load_ioc_codes ud rows).2
                    !! name_key ud (PStr (normalize_text (csv_country_name row)))))
  ∧ (∀ before row, rows = before ++ [row] → ioc_row_usable row →
       (load_ioc_codes ud rows).1 !! normalize_text (csv_noc row)
         = Some (normalize_text (csv_country_name row))
       ∧ (load_ioc_codes ud rows).2
           !! name_key ud (PStr (normalize_text (csv_country_name row)))
         = Some (normalize_text (csv_noc row))).
Proof.
  destruct (load_ioc_codes_spec ud rows) as (Ha & Hb & Hc).
  split; [exact Ha|]. split; [exact Hb|]. split; [exact Hc|].
  intros before row -> [Hu1 Hu2]. rewrite load_ioc_codes_snoc.
  destruct (load_ioc_codes ud before) as [m1 m2]. simpl.
  apply truthy_nonempty in Hu1, Hu2. rewrite Hu1, Hu2. simpl.
  rewrite !lookup_insert_eq. done.
Qed.

Section Loop.
Context (ud : unicode_data) (search_fuzzy : str → option str).
Context (cols : list str) (rank_col nation_col noc_col : option str).
Context (name_to_noc noc_to_name : gmap str str).


End Loop.



End RegistryMore.

(** ** More on the run *)

Section RunMore.
Local Open Scope Z_scope.



Lemma header_matches_default header (stored : option meta)
    (field : meta → option str) :
  field default_meta = None →
  header_matches header (stored ≫= field)
  = header_matches header (field (default default_meta stored)).
Proof. intros H. destruct stored; simpl; [done|]. rewrite H. done. Qed.

(** X17. The two scripts agree on what a change is: a run without the force
    flag skips the refresh exactly when [etag_check.py] reports no change.
    Without a metadata file there is always a change; and a stored
    [Last-Modified] that equals a non-empty fetched one stops the run when
    the [ETag] does not. *)
Theorem change_detection_agrees (ud : unicode_data)
    (search_fuzzy : str → option str) (e : env) (fs : files) (resp : response) :
  fetched e = Ok resp →
  force e = false →
  (etag_check_changed (META_JSON fs) (resp_etag resp) (resp_last_modified resp)
     = true →
   main ud search_fuzzy e fs
   = refresh ud search_fuzzy e resp (default default_meta (META_JSON fs)) fs)
  ∧ (etag_check_changed (META_JSON fs) (resp_etag resp) (resp_last_modified resp)
       = false →
     main ud search_fuzzy e fs = (Returned 0, fs, NO_CHANGES)
     ∨ main ud search_fuzzy e fs = (Returned 0, fs, NO_CHANGES_MODIFIED))
  ∧ (META_JSON fs = None →
     etag_check_changed (META_JSON fs) (resp_etag resp) (resp_last_modified resp)
       = true)
  ∧ (∀ m stamp, META_JSON fs = Some m →
       header_matches (resp_etag resp) (last_etag m) = false →
       resp_last_modified resp = Some stamp → stamp ≠ [] →
       last_modified m = Some stamp →
       main ud search_fuzzy e fs = (Returned 0, fs, NO_CHANGES_MODIFIED)).
Proof.
  intros Hf Hforce. unfold etag_check_changed, main.
  rewrite Hf, Hforce. simpl.
  rewrite !(header_matches_default _ (META_JSON fs)) by done.
  split; [|split; [|split]].
  - destruct (header_matches _ _); [done|].
    destruct (header_matches _ _); done.
  - destruct (header_matches _ _); [by left|].
    destruct (header_matches _ _); [by right|done].
  - intros ->. simpl. destruct (resp_etag resp) as [[|? ?]|];
      destruct (resp_last_modified resp) as [[|? ?]|]; done.
  - intros m stamp -> He Hl Hne Hm. simpl. rewrite He, Hl, Hm.
    destruct stamp; [done|]. simpl.
    rewrite bool_decide_eq_true_2 by done. done.
Qed.

Lemma change_detection_agrees_witness :
  etag_check_changed (META_JSON Sample.no_files) (Some Sample.etag) None = true.
Proof.
  apply (change_detection_agrees Latin1.data Sample.search_fuzzy
           (Sample.env_of false Sample.table) Sample.no_files
           (Response [Sample.table] (Some Sample.etag) None));
    reflexivity.
Defined.

Lemma foldl_add_start (a : Z) l : foldl Z.add a l = a + foldl Z.add 0 l.
Proof.
  revert a. induction l as [|x l IH]; intros a; simpl; [lia|].
  rewrite (IH (a + x)), (IH (0 + x)). lia.
Qed.

Lemma eu_sum_cons field nocs r rows :
  eu_sum field nocs (r :: rows)
  = (if bool_decide (noc r ∈ nocs) then field r else 0) + eu_sum field nocs rows.
Proof.
  unfold eu_sum. cbn [List.filter].
  destruct (bool_decide (noc r ∈ nocs)); [|by rewrite Z.add_0_l].
  rewrite fmap_cons. cbn [foldl]. rewrite foldl_add_start, Z.add_0_l. done.
Qed.

Lemma eu_sum_bounds field nocs rows :
  Forall (λ r, 0 ≤ field r) rows →
  0 ≤ eu_sum field nocs rows
  ∧ ∀ r, r ∈ rows → noc r ∈ nocs → field r ≤ eu_sum field nocs rows.
Proof.
  induction 1 as [|x rows Hx Hrows [IH0 IH]].
  - split; [done|]. intros r Hr. by apply elem_of_nil in Hr.
  - rewrite eu_sum_cons. split.
    + destruct (bool_decide _); lia.
    + intros r Hr Hn. apply elem_of_cons in Hr as [->|Hr].
      * rewrite bool_decide_eq_true_2 by done. lia.
      * specialize (IH r Hr Hn). destruct (bool_decide _); lia.
Qed.

(** X18. When no count of the table is negative, the aggregate row has at
    least the gold, the silver and the bronze of every member row, and its
    counts are not negative. *)
Theorem aggregate_row_dominates (rows : list medal_row)
    (eu_members : list member) :
  Forall (λ r, 0 ≤ gold r ∧ 0 ≤ silver r ∧ 0 ≤ bronze r) rows →
  ∃ agg,
    last (add_eu_row rows eu_members) = Some agg
    ∧ 0 ≤ gold agg ∧ 0 ≤ silver agg ∧ 0 ≤ bronze agg ∧ 0 ≤ total agg
    ∧ ∀ r, r ∈ rows → noc r ∈ eu_nocs_of eu_members →
        gold r ≤ gold agg ∧ silver r ≤ silver agg ∧ bronze r ≤ bronze agg.
Proof.
  intros Hall. unfold add_eu_row. eexists. rewrite last_snoc.
  split; [reflexivity|]. simpl.
  destruct (eu_sum_bounds gold (eu_nocs_of eu_members) rows) as [Hg Hgr].
  { eapply Forall_impl; [exact Hall|]. simpl. tauto. }
  destruct (eu_sum_bounds silver (eu_nocs_of eu_members) rows) as [Hs Hsr].
  { eapply Forall_impl; [exact Hall|]. simpl. tauto. }
  destruct (eu_sum_bounds bronze (eu_nocs_of eu_members) rows) as [Hb Hbr].
  { eapply Forall_impl; [exact Hall|]. simpl. tauto. }
  repeat split; auto; lia.
Qed.

Lemma aggregate_row_dominates_witness :
  ∃ agg,
    last (add_eu_row
            [Sample.row_of (u "A") (u "AAA") 1 0 0;
             Sample.row_of (u "B") (u "BBB") 0 1 0]
            [Member (Some (u "AAA")) true]) = Some agg
    ∧ 0 ≤ gold agg.
Proof.
  destruct (aggregate_row_dominates
              [Sample.row_of (u "A") (u "AAA") 1 0 0;
               Sample.row_of (u "B") (u "BBB") 0 1 0]
              [Member (Some (u "AAA")) true])
    as (agg & Hl & Hg & _).
  - repeat constructor; simpl; lia.
  - exists agg. split; assumption.
Defined.

End RunMore.

(** ** The refresh of the reference file *)

Section RefreshMore.












End RefreshMore.

(** ** The table a run writes *)

Section WrittenMore.
Local Open Scope Z_scope.

Lemma drop_rank_counts r r0 :
  drop_rank r = drop_rank r0 →
  gold r = gold r0 ∧ silver r = silver r0 ∧ bronze r = bronze r0
  ∧ total r = total r0 ∧ country r = country r0.
Proof.
  intros E.
  change (gold (drop_rank r) = gold (drop_rank r0)
          ∧ silver (drop_rank r) = silver (drop_rank r0)
          ∧ bronze (drop_rank r) = bronze (drop_rank r0)
          ∧ total (drop_rank r) = total (drop_rank r0)
          ∧ country (drop_rank r) = country (drop_rank r0)).
  rewrite E. done.
Qed.

(** X20. Every row of the table a run writes is complete: it has a rank between
    1 and the number of rows, an [is_eu] flag, a NOC that is not empty, and
    counts and a total that are not negative; and the table has one row
    more than [parse_medal_table] returned. *)
Theorem written_rows_complete (ud : unicode_data)
    (search_fuzzy : str → option str) (e : env) (fs : files)
    (o : outcome) (fs' : files) :
  main ud search_fuzzy e fs = (o, fs', UPDATED) →
  ∃ resp ioc parsed written,
    fetched e = Ok resp ∧ ioc_codes e = Ok ioc
    ∧ parse_medal_table ud search_fuzzy (resp_tables resp)
        (load_ioc_codes ud ioc).2 (load_ioc_codes ud ioc).1 = Ok (parsed, [])
    ∧ MEDALS_CSV fs' = Some written
    ∧ length written = S (length parsed)
    ∧ ∀ r, r ∈ written →
        (∃ n, rank r = Some n ∧ 1 ≤ n ≤ Z.of_nat (length written))
        ∧ (∃ b, is_eu r = Some b)
        ∧ noc r ≠ []
        ∧ 0 ≤ gold r ∧ 0 ≤ silver r ∧ 0 ≤ bronze r ∧ 0 ≤ total r.
Proof.
  intros Hmain.
  apply main_updated in Hmain
    as (resp & ioc & parsed & m & Hf & Hi & Hparse & _ & ->).
  set (members := load_eu_members (eu_members_file e)).
  exists resp, ioc, parsed, (compute_rank (add_eu_row parsed members)).
  split; [done|]. split; [done|]. split; [done|]. split; [reflexivity|].
  assert (Hlen : length (compute_rank (add_eu_row parsed members))
                 = S (length parsed)).
  { rewrite <- (length_fmap drop_rank (compute_rank _)), compute_rank_perm,
      length_fmap. unfold add_eu_row. rewrite length_app, length_fmap.
    simpl. lia. }
  split; [exact Hlen|].
  assert (Hparsed : ∀ r, r ∈ parsed →
            noc r ≠ [] ∧ 0 ≤ gold r ∧ 0 ≤ silver r ∧ 0 ≤ bronze r ∧ 0 ≤ total r).
  { intros r Hr.
    destruct (parse_medal_table_rows _ _ _ _ _ _ _ _ Hparse Hr)
      as (cols & rk & nation & nc & row & Hx).
    apply extract_row_Extracted in Hx
      as (Hg & Hs & Hb & Ht & _ & _ & Hn & _).
    cbv beta zeta in *. rewrite Hg, Hs, Hb, Ht. split; [done|].
    pose proof (to_int_nonneg (row_get cols row (find_col ud cols [u "gold"]))).
    pose proof (to_int_nonneg (row_get cols row (find_col ud cols [u "silver"]))).
    pose proof (to_int_nonneg (row_get cols row (find_col ud cols [u "bronze"]))).
    pose proof (to_int_nonneg (row_get cols row (find_col ud cols [u "total"]))).
    destruct (Z.eqb_spec
                (to_int (row_get cols row (find_col ud cols [u "total"]))) 0);
      lia. }
  intros r Hr. split.
  { pose proof Hr as Hi'. apply list_elem_of_lookup in Hi' as [i Hi'].
    pose proof (lookup_lt_Some _ _ _ Hi') as Hlt.
    pose proof (first_with_le _ _ _ Hi') as Hle.
    eexists. split; [exact (compute_rank_ranks _ _ _ Hi')|]. lia. }
  apply compute_rank_elem in Hr as (r0 & Hr0 & E).
  destruct (drop_rank_fields _ _ E) as (En & _ & _ & Ee).
  destruct (drop_rank_counts _ _ E) as (Eg & Es & Eb & Et & _).
  rewrite En, Ee, Eg, Es, Eb, Et.
  unfold add_eu_row in Hr0. apply elem_of_app in Hr0 as [Hr0|Hr0].
  - apply list_elem_of_fmap in Hr0 as (r1 & -> & Hr1).
    destruct (Hparsed r1 Hr1) as (? & ? & ? & ? & ?).
    simpl. split; [eauto|]. done.
  - apply list_elem_of_singleton in Hr0 as ->.
    assert (Hall : ∀ field : medal_row → Z,
              (∀ x, x ∈ parsed → 0 ≤ field x) →
              0 ≤ eu_sum field (eu_nocs_of members) parsed).
    { intros field Hfield. apply eu_sum_bounds, Forall_forall, Hfield. }
    pose proof (Hall gold (λ x Hx, proj1 (proj2 (Hparsed x Hx)))).
    pose proof (Hall silver (λ x Hx, proj1 (proj2 (proj2 (Hparsed x Hx))))).
    pose proof (Hall bronze
                  (λ x Hx, proj1 (proj2 (proj2 (proj2 (Hparsed x Hx)))))).
    simpl. split; [eauto|]. split; [done|]. lia.
Qed.

Lemma written_rows_complete_witness :
  ∃ written,
    MEDALS_CSV
      (main Latin1.data Sample.search_fuzzy
         (Sample.env_of false Sample.table) Sample.no_files).1.2
    = Some written
    ∧ length written = 3%nat.
Proof.
  destruct (written_rows_complete Latin1.data Sample.search_fuzzy
              (Sample.env_of false Sample.table) Sample.no_files
              (main Latin1.data Sample.search_fuzzy
                 (Sample.env_of false Sample.table) Sample.no_files).1.1
              (main Latin1.data Sample.search_fuzzy
                 (Sample.env_of false Sample.table) Sample.no_files).1.2)
    as (resp & ioc & parsed & written & _ & _ & Hp & Hw & Hl & _).
  - vm_compute. reflexivity.
  - exists written. split; [exact Hw|].
    revert Hw. vm_compute. intros [= <-]. reflexivity.
Defined.

End WrittenMore.
